(** * Block watcher: the block store, the gap detector, the ingestion
      scheduler, the RPC gateway, the read API and the route normaliser.

    The development embeds the TypeScript sources shallowly:

    - [src/evm-blocks/evm-blocks.service.ts]  (EvmBlocksService)
    - [src/evm-blocks/evm-watcher.provider.ts] (EvmWatcherProvider)
    - [src/rpc/viem-rpc.service.ts]            (ViemRpcService)
    - [src/evm-blocks/evm-blocks.controller.ts] and [dto/evm-block.dto.ts]
    - [src/metrics/metrics.service.ts] and [metrics.middleware.ts]

    JavaScript [bigint] values are [Z]; strings are [string]; a Prisma
    table is the list of its rows in insertion order. *)

From Stdlib Require Import ZArith String Ascii List Bool Lia Arith.
From Stdlib Require Import DecimalString DecimalZ DecimalPos Sorted.
Import ListNotations.

Local Open Scope string_scope.
Local Open Scope list_scope.
Local Open Scope Z_scope.

Set Implicit Arguments.

(* ================================================================== *)
(** * 1. The block table *)
(* ================================================================== *)

(** [model EvmBlock] of the Prisma schema: a surrogate key and the five
    header columns. *)
Record EvmBlock : Type := mkEvmBlock {
  id         : Z;
  chainId    : Z;
  number     : Z;
  hash       : string;
  parentHash : string;
  timestamp  : Z
}.

(** [type EvmBlockInsert = Omit<Prisma.EvmBlockUncheckedCreateInput, "id">] *)
Record EvmBlockInsert : Type := mkInsert {
  i_chainId    : Z;
  i_number     : Z;
  i_hash       : string;
  i_parentHash : string;
  i_timestamp  : Z
}.

(** The table together with its [BIGSERIAL] sequence. *)
Record Table : Type := mkTable {
  rows   : list EvmBlock;
  nextId : Z
}.

Definition emptyTable : Table := mkTable [] 1.

Definition stored (i : Z) (r : EvmBlockInsert) : EvmBlock :=
  mkEvmBlock i (i_chainId r) (i_number r) (i_hash r) (i_parentHash r)
             (i_timestamp r).

(** The columns of a row without its surrogate key. *)
Definition columns (b : EvmBlock) : EvmBlockInsert :=
  mkInsert (chainId b) (number b) (hash b) (parentHash b) (timestamp b).


(** The two unique indexes of the migration:
    [uq_evm_chain_number ("chainId","number")] and
    [uq_evm_chain_hash ("chainId","hash")].  A proposed row conflicts
    with a stored one when it collides on either. *)
Definition conflicts (r : EvmBlockInsert) (b : EvmBlock) : bool :=
  (i_chainId r =? chainId b) &&
  ((i_number r =? number b) || String.eqb (i_hash r) (hash b)).

(** One proposed row of [INSERT ... ON CONFLICT DO NOTHING]: the
    sequence is advanced for every proposed row, the row is appended
    only when no stored row conflicts.  The second component is the
    number of rows inserted. *)
Definition insertRow (t : Table) (r : EvmBlockInsert) : Table * Z :=
  if existsb (conflicts r) (rows t)
  then (mkTable (rows t) (nextId t + 1), 0)
  else (mkTable (rows t ++ [stored (nextId t) r]) (nextId t + 1), 1).

(** [prisma.evmBlock.createMany({ data, skipDuplicates: true })]:
    the rows are proposed in order; the result is the table and
    [{ count }]. *)
Fixpoint createMany (t : Table) (data : list EvmBlockInsert) : Table * Z :=
  match data with
  | [] => (t, 0)
  | r :: rest =>
      let (t1, c1) := insertRow t r in
      let (t2, c2) := createMany t1 rest in
      (t2, c1 + c2)
  end.

(** [EvmBlocksService.upsertBlock(input: EvmBlockInsert[])] (named
    [upsertBlocks] in the later snapshot of the service). *)
Definition upsertBlocks (t : Table) (input : list EvmBlockInsert) : Table * Z :=
  createMany t input.

(** ** Queries *)

Inductive SortOrder : Type := asc | desc.

Definition ordered (o : SortOrder) (a b : EvmBlock) : bool :=
  match o with
  | asc => number a <=? number b
  | desc => number b <=? number a
  end.

Fixpoint insertSorted (o : SortOrder) (x : EvmBlock) (l : list EvmBlock)
  : list EvmBlock :=
  match l with
  | [] => [x]
  | y :: l' => if ordered o x y then x :: l else y :: insertSorted o x l'
  end.

(** [ORDER BY number]: a stable sort of the selected rows. *)
Definition orderBy (o : SortOrder) (l : list EvmBlock) : list EvmBlock :=
  fold_right (insertSorted o) [] l.

(** [prisma.evmBlock.findFirst({ where, orderBy: { number } })] *)
Definition findFirst (where_ : EvmBlock -> bool) (o : SortOrder) (t : Table)
  : option EvmBlock :=
  hd_error (orderBy o (filter where_ (rows t))).

(** [getLatest(chainId)] *)
Definition getLatest (t : Table) (c : Z) : option EvmBlock :=
  findFirst (fun b => chainId b =? c) desc t.

(** [byNumber(chainId, num)] *)
Definition byNumber (t : Table) (c num : Z) : option EvmBlock :=
  findFirst (fun b => (chainId b =? c) && (number b =? num)) desc t.



(** A sequence of batch writes. *)
Definition upsertAll (t : Table) (batches : list (list EvmBlockInsert)) : Table :=
  fold_left (fun acc b => fst (upsertBlocks acc b)) batches t.

(** A proposed row is covered by a table when some stored row
    conflicts with it. *)
Definition covered (t : Table) (r : EvmBlockInsert) : Prop :=
  existsb (conflicts r) (rows t) = true.


(* ================================================================== *)
(** * 2. Gap detection: [EvmBlocksService.findMissingFullRange] *)
(* ================================================================== *)

(** A row of the raw query's result. *)
Record MissingRange : Type := mkRange {
  start_missing : Z;
  end_missing   : Z
}.

(** [LEAD(b."number") OVER (ORDER BY b."number") AS next_number] over
    the heights in ascending order; the last row has [NULL]. *)
Fixpoint lead (l : list Z) : list (Z * option Z) :=
  match l with
  | [] => []
  | n :: rest => (n, hd_error rest) :: lead rest
  end.

(** The [ordered] common table expression: the heights of one chain
    between [from] and [to], ascending, each with its successor. *)
Definition orderedCte (t : Table) (c from to : Z) : list (Z * option Z) :=
  lead (map number
         (orderBy asc
            (filter (fun b => (chainId b =? c) &&
                              ((from <=? number b) && (number b <=? to)))
                    (rows t)))).

(** [WHERE o.next_number IS NOT NULL AND o.next_number > o."number" + 1],
    projected to [(number + 1, next_number - 1)]. *)
Definition gapRow (o : Z * option Z) : list MissingRange :=
  match snd o with
  | Some next_number =>
      if next_number >? fst o + 1
      then [mkRange (fst o + 1) (next_number - 1)]
      else []
  | None => []
  end.

(** The raw query with its [LIMIT]. *)
Definition queryRanges (limit : nat) (t : Table) (c from to : Z)
  : list MissingRange :=
  firstn limit (flat_map gapRow (orderedCte t c from to)).

(** The inner loop
    [for (let n = r.start_missing;
          n <= r.end_missing && missing.length < limit; n++)
       missing.push(n)].
    The fuel is the number of heights of the range, which the loop
    never exceeds. *)
Fixpoint pushRange (fuel : nat) (limit : nat) (n end_ : Z) (missing : list Z)
  : list Z :=
  match fuel with
  | O => missing
  | S fuel' =>
      if (n <=? end_) && (length missing <? limit)%nat
      then pushRange fuel' limit (n + 1) end_ (missing ++ [n])
      else missing
  end.

(** The outer loop [for (const r of ranges) { ...; if (missing.length >=
    limit) break; }]. *)
Fixpoint collectMissing (limit : nat) (ranges : list MissingRange)
         (missing : list Z) : list Z :=
  match ranges with
  | [] => missing
  | r :: rest =>
      let missing' :=
        pushRange (Z.to_nat (end_missing r - start_missing r + 1)) limit
                  (start_missing r) (end_missing r) missing in
      if (limit <=? length missing')%nat then missing'
      else collectMissing limit rest missing'
  end.

(** The body of [findMissingFullRange] for a given [limit]. *)
Definition findMissingWithLimit (limit : nat) (t : Table) (c : Z) : list Z :=
  match findFirst (fun b => chainId b =? c) asc t,
        findFirst (fun b => chainId b =? c) desc t with
  | Some first, Some last =>
      let from := number first in
      let to := number last in
      if to <? from then []
      else collectMissing limit (queryRanges limit t c from to) []
  | _, _ => []
  end.

(** [const limit = 10] *)
Definition limit : nat := 10.

Definition findMissingFullRange (t : Table) (c : Z) : list Z :=
  findMissingWithLimit limit t c.

(** ** Reference notions for the gap detector *)

(** Heights stored for a chain, in insertion order. *)
Definition heights (t : Table) (c : Z) : list Z :=
  map number (filter (fun b => chainId b =? c) (rows t)).

Definition minHeight (t : Table) (c : Z) : option Z :=
  match heights t c with
  | [] => None
  | h :: hs => Some (fold_left Z.min hs h)
  end.

Definition maxHeight (t : Table) (c : Z) : option Z :=
  match heights t c with
  | [] => None
  | h :: hs => Some (fold_left Z.max hs h)
  end.

Fixpoint zrangeN (lo : Z) (k : nat) : list Z :=
  match k with
  | O => []
  | S k' => lo :: zrangeN (lo + 1) k'
  end.

(** The heights [lo, lo+1, ..., hi]. *)
Definition zrange (lo hi : Z) : list Z := zrangeN lo (Z.to_nat (hi - lo + 1)).

Definition isStored (t : Table) (c n : Z) : bool :=
  existsb (Z.eqb n) (heights t c).

(** All heights strictly between the least and the greatest stored
    height of a chain that are not stored, ascending. *)
Definition missingHeights (t : Table) (c : Z) : list Z :=
  match minHeight t c, maxHeight t c with
  | Some first, Some last =>
      filter (fun n => negb (isStored t c n)) (zrange (first + 1) (last - 1))
  | _, _ => []
  end.

(** The gaps of an ascending list of heights. *)
Fixpoint gaps (l : list Z) : list MissingRange :=
  match l with
  | [] => []
  | a :: rest =>
      match rest with
      | [] => []
      | b :: _ =>
          (if b >? a + 1 then [mkRange (a + 1) (b - 1)] else []) ++ gaps rest
      end
  end.

Definition expand (r : MissingRange) : list Z :=
  zrange (start_missing r) (end_missing r).

(** A table with the islands [lo..hi] of one chain. *)
Definition island (c lo hi : Z) : list EvmBlockInsert :=
  map (fun n => mkInsert c n ("0xblock_" ++ NilZero.string_of_int (Z.to_int n))
                         "0xparent" 1700000000)
      (zrange lo hi).

(* ================================================================== *)
(** * 3. JavaScript values at the boundaries *)
(* ================================================================== *)

(** [bigint.toString()] and the template literal [`${n}`] of a bigint
    or an integral number: the decimal notation. *)
Definition toString (z : Z) : string := NilZero.string_of_int (Z.to_int z).

(** The decimal notation read back: [Some z] exactly on [^-?\d+$]. *)
Definition ofDecimal (s : string) : option Z :=
  option_map Z.of_int (NilZero.int_of_string s).

(** A JavaScript [number] that holds an integer, or an infinity.  (No
    operation of this development produces a fraction or a NaN.) *)
Inductive JsNumber : Type :=
| Num (z : Z)
| Infinite (negative : bool).

(** The nearest multiple of the unit in the last place of a 53-bit
    significand, ties to even, for [a >= 0]. *)
Definition nearestDouble (a : Z) : Z :=
  if a <? 2 ^ 53 then a
  else
    let sh := Z.log2 a - 52 in
    let q := Z.shiftr a sh in
    let r := a - Z.shiftl q sh in
    let half := Z.shiftl 1 (sh - 1) in
    let q' := if r <? half then q
              else if half <? r then q + 1
              else if Z.even q then q else q + 1 in
    Z.shiftl q' sh.

(** [Number(x)] for a bigint [x], and the number value of an integer
    literal: IEEE-754 binary64, round to nearest, ties to even. *)
Definition toNumber (x : Z) : JsNumber :=
  let m := nearestDouble (Z.abs x) in
  if m <? 2 ^ 1024 then Num (Z.sgn x * m) else Infinite (x <? 0).

(** Nest's [ParseIntPipe.transform]:
    [if (!/^-?\d+$/.test(value) || !isFinite(value)) throw
     BadRequestException; return parseInt(value, 10)].
    [None] stands for the exception. *)
Definition ParseIntPipe (value : string) : option Z :=
  match ofDecimal value with
  | Some z =>
      match toNumber z with
      | Num n => Some n
      | Infinite _ => None
      end
  | None => None
  end.

(* ================================================================== *)
(** * 4. The read API: [EvmBlocksController] and [toEvmBlockDto] *)
(* ================================================================== *)

Record EvmBlockDto : Type := mkDto {
  dto_number     : string;
  dto_hash       : string;
  dto_parentHash : string;
  dto_timestamp  : string
}.

(** [toEvmBlockDto(block)] *)
Definition toEvmBlockDto (block : EvmBlock) : EvmBlockDto :=
  mkDto (toString (number block)) (hash block) (parentHash block)
        (toString (timestamp block)).

Inductive JsonValue : Type :=
| JString (s : string)
| JNumber (n : Z)
| JBool (b : bool).

(** A JSON object: its properties in order. *)
Definition Json : Type := list (string * JsonValue).

(** The JSON object of a DTO: its own properties in definition order. *)
Definition dtoJson (d : EvmBlockDto) : Json :=
  [("number", JString (dto_number d));
   ("hash", JString (dto_hash d));
   ("parentHash", JString (dto_parentHash d));
   ("timestamp", JString (dto_timestamp d))].

Record Response : Type := mkResponse {
  status : Z;
  body   : Json
}.

Definition notFound : Json := [("error", JString "Not found")].

(** The body of Nest's [BadRequestException] raised by the pipe. *)
Definition badRequest : Response :=
  mkResponse 400
    [("message", JString "Validation failed (numeric string is expected)");
     ("error", JString "Bad Request");
     ("statusCode", JNumber 400)].

(** Prisma refuses a value that does not fit the column ([Int]: 32-bit
    signed, [BigInt]: 64-bit signed); Nest turns the rejection into
    status 500. *)
Definition internalError : Response :=
  mkResponse 500
    [("statusCode", JNumber 500);
     ("message", JString "Internal server error")].

Definition fitsInt (z : Z) : bool := (- 2 ^ 31 <=? z) && (z <? 2 ^ 31).
Definition fitsBigInt (z : Z) : bool := (- 2 ^ 63 <=? z) && (z <? 2 ^ 63).

Definition ok (j : Json) : Response := mkResponse 200 j.

(** [@Get(":chainId/latest") latest(@Param("chainId", ParseIntPipe) chainId)] *)
Definition latest (t : Table) (chainIdParam : string) : Response :=
  match ParseIntPipe chainIdParam with
  | None => badRequest
  | Some c =>
      if fitsInt c then
        match getLatest t c with
        | None => ok notFound
        | Some res => ok (dtoJson (toEvmBlockDto res))
        end
      else internalError
  end.

(** [@Get(":chainId/:number") byNumber(@Param("chainId", ParseIntPipe)
    chainId, @Param("number", ParseIntPipe) number)]: the pipes run in
    parameter order. *)
Definition byNumberRoute (t : Table) (chainIdParam numberParam : string)
  : Response :=
  match ParseIntPipe chainIdParam with
  | None => badRequest
  | Some c =>
      match ParseIntPipe numberParam with
      | None => badRequest
      | Some n =>
          if fitsInt c && fitsBigInt n then
            match byNumber t c n with
            | None => ok notFound
            | Some res => ok (dtoJson (toEvmBlockDto res))
            end
          else internalError
      end
  end.

(** The routes below [/evm/blocks], in declaration order. *)
Definition evmBlocksController (t : Table) (segments : list string)
  : option Response :=
  match segments with
  | ["health"] => Some (ok [("ok", JBool true)])
  | [c; n] => Some (if String.eqb n "latest" then latest t c
                    else byNumberRoute t c n)
  | _ => None
  end.


(* ================================================================== *)
(** * 5. The ingestion scheduler: [EvmWatcherProvider] *)
(* ================================================================== *)

(** A thrown [Error], by its message. *)
Definition Exn : Type := string.

(** The header fields of a block as the RPC returns it. *)
Record RpcBlock : Type := mkRpcBlock {
  rb_number     : Z;
  rb_hash       : string;
  rb_parentHash : string;
  rb_timestamp  : Z
}.

(** [interface RpcService] of [rpc.types.ts].  A promise settles to
    [inr] (fulfilled) or [inl] (rejected); [getBlockByNumber] may
    fulfil with [null]. *)
Class RpcService : Type := {
  getHeadNumber         : Z -> Exn + Z;
  getBlockByNumber      : Z -> Z -> Exn + option RpcBlock;
  getConfiguredChainIds : list Z;
  getChainName          : Z -> string
}.

Inductive Level : Type := LOG | DEBUG | ERROR.

(** What a firing of a timer can change: the table and the logger's
    output. *)
Record World : Type := mkWorld {
  db   : Table;
  logs : list (Level * string)
}.

(** An asynchronous method: it runs on a world and either returns or
    throws; the effects made before a throw stay. *)
Definition Action (A : Type) : Type := World -> (Exn + A) * World.

Definition ret {A : Type} (a : A) : Action A := fun w => (inr a, w).

Definition throw {A : Type} (e : Exn) : Action A := fun w => (inl e, w).

Definition bind {A B : Type} (m : Action A) (k : A -> Action B) : Action B :=
  fun w =>
    match m w with
    | (inr a, w') => k a w'
    | (inl e, w') => (inl e, w')
    end.

(** [try { body } catch (err) { handler(err) }] *)
Definition tryCatch {A : Type} (body : Action A) (handler : Exn -> Action A)
  : Action A :=
  fun w =>
    match body w with
    | (inr a, w') => (inr a, w')
    | (inl e, w') => handler e w'
    end.

(** [await promise] *)
Definition await {A : Type} (p : Exn + A) : Action A :=
  fun w => (p, w).

Declare Scope action_scope.
Delimit Scope action_scope with action.
Notation "x <- m ;; k" := (bind m (fun x => k))
  (at level 100, m at next level, right associativity) : action_scope.
Notation "m ;;; k" := (bind m (fun _ => k))
  (at level 100, right associativity) : action_scope.

(** [for (const x of xs) body(x)] *)
Fixpoint forOf {A : Type} (xs : list A) (body : A -> Action unit)
  : Action unit :=
  match xs with
  | [] => ret tt
  | x :: rest => bind (body x) (fun _ => forOf rest body)
  end.

Definition logger (lvl : Level) (msg : string) : Action unit :=
  fun w => (inr tt, mkWorld (db w) (logs w ++ [(lvl, msg)])).

(** [err?.message || err]: an empty message falls through to the
    error object itself, which prints as its name. *)
Definition errorText (e : Exn) : string :=
  if String.eqb e "" then "Error" else e.

(** The values of a list of settled results, or the first failure
    in list order. *)
Fixpoint collect {A : Type} (results : list (Exn + A)) : Exn + list A :=
  match results with
  | [] => inr []
  | inl e :: _ => inl e
  | inr a :: rest =>
      match collect rest with
      | inl e => inl e
      | inr l => inr (a :: l)
      end
  end.

(** [Promise.all(requests)]: the list of the values when every request
    fulfils, otherwise a rejection (taken to be the one of the first
    rejected request in list order). *)
Definition promiseAll {A : Type} (requests : list (Exn + A)) : Exn + list A :=
  collect requests.

(** [missing.join(", ")] *)
Fixpoint join (sep : string) (l : list string) : string :=
  match l with
  | [] => ""
  | [x] => x
  | x :: rest => x ++ sep ++ join sep rest
  end.

(** The calls of the store that a fault can hit. *)
Inductive DbOp : Type :=
| OpGetLatest (c : Z)
| OpFindMissing (c : Z)
| OpUpsert (data : list EvmBlockInsert).

(** [{ chainId, number: b.number!, hash: b.hash!, parentHash:
    b.parentHash!, timestamp: Number(b.timestamp) }].  Reading a
    property of [null] throws a [TypeError]; a timestamp that
    [Number] turns into an infinity is refused by Prisma when the
    row is written. *)
Definition mapped (c : Z) (b : option RpcBlock) : Exn + EvmBlockInsert :=
  match b with
  | None => inl "Cannot read properties of null (reading 'number')"
  | Some b =>
      match toNumber (rb_timestamp b) with
      | Num ts => inr (mkInsert c (rb_number b) (rb_hash b) (rb_parentHash b) ts)
      | Infinite _ => inl "Invalid value for argument `timestamp`"
      end
  end.

(** A world grows into another when no row and no log line is lost. *)
Definition grows (w w' : World) : Prop :=
  (exists added, rows (db w') = rows (db w) ++ added) /\
  (exists lines, logs w' = logs w ++ lines).

Section Watcher.

Context {rpc : RpcService}.

(** The faults of the store during one firing: [Some e] makes the call
    reject with [e] and leaves the table as it is. *)
Variable dbFault : DbOp -> option Exn.

Local Open Scope action_scope.

Definition evmBlocks_getLatest (c : Z) : Action (option EvmBlock) :=
  fun w =>
    match dbFault (OpGetLatest c) with
    | Some e => (inl e, w)
    | None => (inr (getLatest (db w) c), w)
    end.

Definition evmBlocks_findMissingFullRange (c : Z) : Action (list Z) :=
  fun w =>
    match dbFault (OpFindMissing c) with
    | Some e => (inl e, w)
    | None => (inr (findMissingFullRange (db w) c), w)
    end.

Definition evmBlocks_upsertBlocks (data : list EvmBlockInsert) : Action Z :=
  fun w =>
    match dbFault (OpUpsert data) with
    | Some e => (inl e, w)
    | None =>
        let (t', count) := upsertBlocks (db w) data in
        (inr count, mkWorld t' (logs w))
    end.

(** [private async tick(chainId)] *)
Definition tick (c : Z) : Action unit :=
  head <- await (getHeadNumber c) ;;
  b <- await (getBlockByNumber c head) ;;
  row <- await (mapped c b) ;;
  evmBlocks_upsertBlocks [row] ;;;
  let name := getChainName c in
  logger LOG ("[" ++ name ++ "] inserted head block " ++ toString head).

(** The body of the loops over the configured chains:
    [try { await work(chainId) }
     catch (err) { this.logger.error(`[${chainId}] ${err?.message || err}`) }] *)
Definition guarded (work : Z -> Action unit) (c : Z) : Action unit :=
  tryCatch (work c)
           (fun err => logger ERROR ("[" ++ toString c ++ "] " ++ errorText err)).

(** [@Cron(EVERY_5_SECONDS) async handleCron()] *)
Definition handleCron : Action unit :=
  forOf getConfiguredChainIds (guarded tick).

(** What the RPC answers for the head of a chain: the head height and
    the row built from the head block. *)
Definition headRow (c : Z) : Exn + (Z * EvmBlockInsert) :=
  match getHeadNumber c with
  | inl e => inl e
  | inr head =>
      match getBlockByNumber c head with
      | inl e => inl e
      | inr b =>
          match mapped c b with
          | inl e => inl e
          | inr row => inr (head, row)
          end
      end
  end.

(** [private async scanClientTip(chainId)] *)
Definition scanClientTip (c : Z) : Action unit :=
  let name := getChainName c in
  latest <- evmBlocks_getLatest c ;;
  match latest with
  | None => logger DEBUG ("[" ++ name ++ "] No blocks in DB yet — skipping")
  | Some _ =>
      missing <- evmBlocks_findMissingFullRange c ;;
      if (length missing =? 0)%nat
      then logger DEBUG ("[" ++ name ++ "] No missing blocks found")
      else
        let blocksRequests := map (fun n => getBlockByNumber c n) missing in
        blocks <- await (promiseAll blocksRequests) ;;
        data <- await (collect (map (mapped c) blocks)) ;;
        evmBlocks_upsertBlocks data ;;;
        logger LOG ("[" ++ name ++ "] synced " ++ join ", " (map toString missing))
  end.

(** [@Cron(EVERY_MINUTE) async scanTipWindows()] *)
Definition scanTipWindows : Action unit :=
  let configuredChainIds := getConfiguredChainIds in
  if (length configuredChainIds =? 0)%nat
  then logger DEBUG "No EVM clients configured — skipping tip scan"
  else
    forOf configuredChainIds (guarded scanClientTip).

(** What the guarded head tick of one chain leaves behind. *)
Definition headTickDone (c : Z) (w : World) : Prop :=
  match headRow c with
  | inr (head, row) =>
      match dbFault (OpUpsert [row]) with
      | None =>
          covered (db w) row /\
          In (LOG, ("[" ++ getChainName c ++ "] inserted head block "
                        ++ toString head)%string) (logs w)
      | Some e =>
          In (ERROR, ("[" ++ toString c ++ "] " ++ errorText e)%string) (logs w)
      end
  | inl e =>
      In (ERROR, ("[" ++ toString c ++ "] " ++ errorText e)%string) (logs w)
  end.

End Watcher.

(** An action is growing when it never loses a row or a log line. *)
Definition growing {A : Type} (m : Action A) : Prop :=
  forall w, grows w (snd (m w)).

(** No fault of the store. *)
Definition noFault : DbOp -> option Exn := fun _ => None.

Definition emptyWorld : World := mkWorld emptyTable [].

(** The RPC of the failure-isolation scenario: chains 1, 2 and 3, where
    [getHeadNumber] of chain 2 always rejects. *)
Definition isolationRpc : RpcService := {|
  getHeadNumber c := if c =? 2 then inl "RpcUnavailable" else inr (c * 1000);
  getBlockByNumber c n :=
    inr (Some (mkRpcBlock n ("0xhead" ++ toString n) ("0xparent" ++ toString n)
                          1700000000));
  getConfiguredChainIds := [1; 2; 3];
  getChainName c := ("MockChain" ++ toString c)%string
|}.

(** The RPC of a gap scan over chains 2 and 12, where every
    [getBlockByNumber] of chain 2 rejects. *)
Definition gapScanRpc : RpcService := {|
  getHeadNumber c := inr 1000;
  getBlockByNumber c n :=
    if c =? 2 then inl "Network timeout"
    else inr (Some (mkRpcBlock n ("0xmock_" ++ toString n)
                               ("0xparent_" ++ toString n) 1700000000));
  getConfiguredChainIds := [2; 12];
  getChainName c := ("MockChain" ++ toString c)%string
|}.

(** Chain 2 with 2000..2005 and 2010..2015, chain 12 with 200..205 and
    210..215. *)
Definition gapScanWorld : World :=
  mkWorld (fst (upsertBlocks emptyTable
                  (island 2 2000 2005 ++ island 2 2010 2015 ++
                   island 12 200 205 ++ island 12 210 215))) [].

(* ================================================================== *)
(** * 6. The RPC gateway: [ViemRpcService] *)
(* ================================================================== *)

(** The part of a [viem/chains] descriptor that the gateway reads. *)
Record Chain : Type := mkChain {
  chain_id   : Z;
  chain_name : string
}.

Definition mainnet  : Chain := mkChain 1 "Ethereum".
Definition optimism : Chain := mkChain 10 "OP Mainnet".
Definition polygon  : Chain := mkChain 137 "Polygon".
Definition arbitrum : Chain := mkChain 42161 "Arbitrum One".
Definition base     : Chain := mkChain 8453 "Base".
Definition sepolia  : Chain := mkChain 11155111 "Sepolia".

(** [function viemChainById(id: number): Chain] *)
Definition viemChainById (id_ : Z) : Chain :=
  if id_ =? 1 then mainnet
  else if id_ =? 10 then optimism
  else if id_ =? 137 then polygon
  else if id_ =? 42161 then arbitrum
  else if id_ =? 8453 then base
  else if id_ =? 11155111 then sepolia
  else mainnet.

(** [createPublicClient({ chain, transport: http(url) })] *)
Record PublicClient : Type := mkClient {
  chain     : option Chain;
  transport : string
}.

(** The environment read by [ConfigService]. *)
Definition ConfigService : Type := string -> option string.

(** [config.get<string>(key, defaultValue)] *)
Definition config_get (config : ConfigService) (key default : string) : string :=
  match config key with
  | Some v => v
  | None => default
  end.

(** A JavaScript [Map<number, V>]: the entries in insertion order. *)
Definition JsMap (V : Type) : Type := list (Z * V).

Fixpoint map_get {V : Type} (m : JsMap V) (k : Z) : option V :=
  match m with
  | [] => None
  | (k', v) :: rest => if k' =? k then Some v else map_get rest k
  end.

Fixpoint map_set {V : Type} (m : JsMap V) (k : Z) (v : V) : JsMap V :=
  match m with
  | [] => [(k, v)]
  | (k', v') :: rest =>
      if k' =? k then (k, v) :: rest else (k', v') :: map_set rest k v
  end.

Definition map_keys {V : Type} (m : JsMap V) : list Z := map fst m.

Record ViemRpcService : Type := mkViem {
  config  : ConfigService;
  clients : JsMap PublicClient
}.

(** [constructor(private readonly config: ConfigService)] *)
Definition newViemRpcService (config : ConfigService) : ViemRpcService :=
  let mainnetUrl := config_get config "RPC_ETH_MAINNET_URL" "" in
  mkViem config (map_set [] 1 (mkClient (Some (viemChainById 1)) mainnetUrl)).

(** [private getClient(chainId)]: the cached client, or a new one that
    is cached. *)
Definition getClient (svc : ViemRpcService) (chainId_ : Z)
  : PublicClient * ViemRpcService :=
  match map_get (clients svc) chainId_ with
  | Some existing => (existing, svc)
  | None =>
      let url := config_get (config svc)
                   ("RPC_CHAIN_" ++ toString chainId_ ++ "_URL") "" in
      let client := mkClient (Some (viemChainById chainId_)) url in
      (client, mkViem (config svc) (map_set (clients svc) chainId_ client))
  end.

(** The argument of [client.getBlock]. *)
Inductive BlockQuery : Type :=
| blockTagLatest
| blockNumber (n : Z).

Section Gateway.

(** [client.getBlock(query)] of the viem client: the network. *)
Variable getBlock : PublicClient -> BlockQuery -> Exn + RpcBlock.

(** [async getHeadNumber(chainId)] *)
Definition viem_getHeadNumber (svc : ViemRpcService) (chainId_ : Z)
  : (Exn + Z) * ViemRpcService :=
  let (client, svc') := getClient svc chainId_ in
  (match getBlock client blockTagLatest with
   | inr b => inr (rb_number b)
   | inl e => inl e
   end, svc').

(** [async getBlockByNumber(chainId, number)] *)
Definition viem_getBlockByNumber (svc : ViemRpcService) (chainId_ n : Z)
  : (Exn + RpcBlock) * ViemRpcService :=
  let (client, svc') := getClient svc chainId_ in
  (getBlock client (blockNumber n), svc').

End Gateway.

(** [getConfiguredChainIds()] *)
Definition viem_getConfiguredChainIds (svc : ViemRpcService) : list Z :=
  map_keys (clients svc).

(** [getChainName(chainId)]:
    [client.chain?.name ?? `chainId=${chainId}`] *)
Definition viem_getChainName (svc : ViemRpcService) (chainId_ : Z)
  : string * ViemRpcService :=
  let (client, svc') := getClient svc chainId_ in
  (match chain client with
   | Some ch => chain_name ch
   | None => ("chainId=" ++ toString chainId_)%string
   end, svc').

(** An environment without any RPC URL. *)
Definition noConfig : ConfigService := fun _ => None.

(** A network that answers every client. *)
Definition answering (client : PublicClient) (q : BlockQuery) : Exn + RpcBlock :=
  match q with
  | blockTagLatest => inr (mkRpcBlock 19000000 "0xhead" "0xparent" 1700000000)
  | blockNumber n => inr (mkRpcBlock n "0xblock" "0xparent" 1700000000)
  end.

(** The chain ids for which [viem/chains] descriptors are wired in. *)
Definition knownChain (id_ : Z) : bool :=
  existsb (Z.eqb id_) [1; 10; 137; 42161; 8453; 11155111].

(* ================================================================== *)
(** * 7. Route labels: [MetricsService.normalizeRoute] and
      [MetricsMiddleware.use] *)
(* ================================================================== *)

Local Open Scope char_scope.

Definition isSlash (c : ascii) : bool := Ascii.eqb c "/".

(** [\d] *)
Definition isDigit (c : ascii) : bool :=
  let n := nat_of_ascii c in ((48 <=? n) && (n <=? 57))%nat.

(** [[a-f0-9]] under the [i] flag. *)
Definition isHex (c : ascii) : bool :=
  let n := nat_of_ascii c in
  isDigit c || ((97 <=? n) && (n <=? 102))%nat || ((65 <=? n) && (n <=? 70))%nat.

(** The pieces of the fixed-width patterns. *)
Inductive Item : Type :=
| Hex (n : nat)     (* [[0-9a-f]{n}] *)
| Dash.             (* [-] *)

(** Exactly [n] characters of a class; the result is what follows. *)
Fixpoint takeN (p : ascii -> bool) (n : nat) (s : list ascii)
  : option (list ascii) :=
  match n with
  | O => Some s
  | S k =>
      match s with
      | c :: r => if p c then takeN p k r else None
      | [] => None
      end
  end.

Definition takeChar (c : ascii) (s : list ascii) : option (list ascii) :=
  match s with
  | d :: r => if Ascii.eqb c d then Some r else None
  | [] => None
  end.

(** A fixed-width pattern matched at the start of [s]. *)
Fixpoint matchShape (shape : list Item) (s : list ascii)
  : option (list ascii) :=
  match shape with
  | [] => Some s
  | Hex n :: shape' =>
      match takeN isHex n s with
      | Some r => matchShape shape' r
      | None => None
      end
  | Dash :: shape' =>
      match takeChar "-" s with
      | Some r => matchShape shape' r
      | None => None
      end
  end.

Definition width (shape : list Item) : nat :=
  fold_right (fun i acc => match i with Hex n => n | Dash => 1 end + acc)%nat
             O shape.

(** The longest run of a class at the start of [s] (a greedy [+]). *)
Fixpoint spanLen (p : ascii -> bool) (s : list ascii) : nat :=
  match s with
  | c :: r => if p c then S (spanLen p r) else O
  | [] => O
  end.

(** What a pattern of the form [/\/body/] matches right after a slash:
    the number of characters of the body, if it matches there. *)
Definition Pattern : Type := list ascii -> option nat.

Definition patShape (shape : list Item) : Pattern :=
  fun s => match matchShape shape s with
           | Some _ => Some (width shape)
           | None => None
           end.

Definition uuidShape : list Item :=
  [Hex 8; Dash; Hex 4; Dash; Hex 4; Dash; Hex 4; Dash; Hex 12].

(** [/\/[0-9a-f]{8}-[0-9a-f]{4}-[0-9a-f]{4}-[0-9a-f]{4}-[0-9a-f]{12}/gi] *)
Definition patUuid : Pattern := patShape uuidShape.

(** [/\/0x[a-f0-9]+/gi] *)
Definition patHexPrefixed : Pattern :=
  fun s => match s with
           | c0 :: cx :: r =>
               if Ascii.eqb c0 "0" && (Ascii.eqb cx "x" || Ascii.eqb cx "X")
               then match spanLen isHex r with
                    | O => None
                    | S k => Some (2 + S k)%nat
                    end
               else None
           | _ => None
           end.

(** [/\/[a-f0-9]{64}/gi] *)
Definition patHex64 : Pattern := patShape [Hex 64].

(** [/\/[a-f0-9]{40}/gi] *)
Definition patHex40 : Pattern := patShape [Hex 40].

(** [/\/\d+/g] *)
Definition patDigits : Pattern :=
  fun s => match spanLen isDigit s with
           | O => None
           | S k => Some (S k)
           end.

(** [s.replace(/\/body/g, "/" + rep)]: the string is scanned from the
    left; where the pattern matches at a slash, the match is replaced
    and the scan resumes after it ([skip] counts the characters of the
    match that are still to be passed). *)
Fixpoint replaceAll (pat : Pattern) (rep : list ascii) (skip : nat)
         (s : list ascii) : list ascii :=
  match s with
  | [] => []
  | c :: rest =>
      match skip with
      | S k => replaceAll pat rep k rest
      | O =>
          if isSlash c then
            match pat rest with
            | Some n => "/" :: rep ++ replaceAll pat rep n rest
            | None => c :: replaceAll pat rep O rest
            end
          else c :: replaceAll pat rep O rest
      end
  end.

Local Close Scope char_scope.

Definition chars (s : string) : list ascii := list_ascii_of_string s.

(** The five replacements of [normalizeRoute], in source order. *)
Definition normalizeChars (s : list ascii) : list ascii :=
  let s1 := replaceAll patUuid (chars ":id") 0 s in
  let s2 := replaceAll patHexPrefixed (chars ":hash") 0 s1 in
  let s3 := replaceAll patHex64 (chars ":hash") 0 s2 in
  let s4 := replaceAll patHex40 (chars ":address") 0 s3 in
  replaceAll patDigits (chars ":id") 0 s4.

(** [normalizeRoute(path)]: the replacements, [|| '/unknown']. *)
Definition normalizeRoute (path : string) : string :=
  match normalizeChars (chars path) with
  | [] => "/unknown"
  | s => string_of_list_ascii s
  end.

(** What the middleware reads of a request when the response ends. *)
Record Request : Type := mkRequest {
  method     : string;
  route_path : option string;   (* [req.route?.path] *)
  path       : string           (* [req.path] *)
}.

(** [a || b] on strings: the empty string is falsy. *)
Definition orElse (a b : string) : string :=
  if String.eqb a "" then b else a.

(** [req.route?.path || req.path || '/unknown'] *)
Definition observedRoute (req : Request) : string :=
  orElse (match route_path req with Some p => p | None => "" end)
         (orElse (path req) "/unknown").

(** The labels of one observation of [http_server_requests_seconds]. *)
Record HttpLabels : Type := mkLabels {
  l_method      : string;
  l_route       : string;
  l_status_code : string
}.

(** The labels recorded by the wrapped [res.end]. *)
Definition recordedLabels (req : Request) (statusCode : Z) : HttpLabels :=
  mkLabels (method req) (normalizeRoute (observedRoute req))
           (toString statusCode).

(** ** Segments and their kinds *)

(** [s.split("/")]: the first piece and the pieces after each slash. *)
Fixpoint splitSlash (s : list ascii) : list ascii * list (list ascii) :=
  match s with
  | [] => ([], [])
  | c :: r =>
      let (w, ws) := splitSlash r in
      if isSlash c then ([], w :: ws) else (c :: w, ws)
  end.

Definition segments (s : string) : list (list ascii) :=
  let (w, ws) := splitSlash (chars s) in w :: ws.

Definition startsWithSlash (s : string) : bool :=
  match s with
  | String c _ => isSlash c
  | EmptyString => false
  end.

(** A segment made of decimal digits only. *)
Definition digitOnly (w : list ascii) : bool :=
  negb (length w =? 0)%nat && forallb isDigit w.

(** A segment of exactly [n] hex characters. *)
Definition hexOfLength (n : nat) (w : list ascii) : bool :=
  (length w =? n)%nat && forallb isHex w.

(** A segment [0x] followed by hex characters. *)
Definition hexPrefixed (w : list ascii) : bool :=
  match w with
  | c0 :: cx :: r =>
      Ascii.eqb c0 "0" && (Ascii.eqb cx "x" || Ascii.eqb cx "X") &&
      negb (length r =? 0)%nat && forallb isHex r
  | _ => false
  end.

(** A segment that is a UUID. *)
Definition isUuid (w : list ascii) : bool :=
  match matchShape uuidShape w with
  | Some [] => true
  | _ => false
  end.

(** The segments that a route label must not contain. *)
Definition unbounded (w : list ascii) : bool :=
  digitOnly w || hexOfLength 40 w || hexOfLength 64 w || hexPrefixed w
  || isUuid w.

Definition noSlash (w : list ascii) : Prop := existsb isSlash w = false.

(** The effect of one replacement on a segment that follows a slash. *)
Definition replaceSegment (pat : Pattern) (rep : list ascii) (w : list ascii)
  : list ascii :=
  match pat w with
  | Some n => rep ++ skipn n w
  | None => w
  end.

Definition normalizeSegment (w : list ascii) : list ascii :=
  replaceSegment patDigits (chars ":id")
    (replaceSegment patHex40 (chars ":address")
       (replaceSegment patHex64 (chars ":hash")
          (replaceSegment patHexPrefixed (chars ":hash")
             (replaceSegment patUuid (chars ":id") w)))).

(** What may follow a segment: the end of the string or a slash. *)
Definition boundary (rest : list ascii) : Prop :=
  match rest with
  | [] => True
  | c :: _ => isSlash c = true
  end.

(** A pattern is local when it reads no further than the segment that
    follows the slash, and bounded when its match stays inside it. *)
Definition localPattern (pat : Pattern) : Prop :=
  forall w rest, boundary rest -> pat (w ++ rest) = pat w.

Definition boundedPattern (pat : Pattern) : Prop :=
  forall w n, pat w = Some n -> (n <= length w)%nat.

(** [w0 + "/" + w1 + "/" + w2 ...] *)
Definition joinSegments (w0 : list ascii) (ws : list (list ascii))
  : list ascii :=
  w0 ++ flat_map (fun w => "/"%char :: w) ws.

(** A segment that begins with a colon, as every replacement does. *)
Definition colonFirst (w : list ascii) : bool :=
  match w with
  | c :: _ => Ascii.eqb c ":"
  | [] => false
  end.

(* ================================================================== *)
(** * 8. Further notions used by the properties *)
(* ================================================================== *)

(** The keys of the two unique indexes of the migration. *)
Definition numberKey (b : EvmBlock) : Z * Z := (chainId b, number b).
Definition hashKey (b : EvmBlock) : Z * string := (chainId b, hash b).

(** Both unique indexes hold of a table. *)
Definition uniqueKeys (t : Table) : Prop :=
  NoDup (map numberKey (rows t)) /\ NoDup (map hashKey (rows t)).

(** The rows of one chain, in insertion order. *)
Definition chainRows (t : Table) (c : Z) : list EvmBlock :=
  filter (fun b => chainId b =? c) (rows t).

(* ================================================================== *)
(** * Properties *)
(* ================================================================== *)

(** ** The block table *)

Section TableFacts.

Lemma conflicts_stored (i : Z) (r : EvmBlockInsert) :
  conflicts r (stored i r) = true.
Proof.
  unfold conflicts, stored; simpl.
  now rewrite !Z.eqb_refl.
Qed.

Lemma insertRow_rows (t : Table) (r : EvmBlockInsert) :
  exists extra,
    rows (fst (insertRow t r)) = rows t ++ extra /\
    snd (insertRow t r) = Z.of_nat (length extra) /\
    nextId (fst (insertRow t r)) = nextId t + 1.
Proof.
  unfold insertRow.
  destruct (existsb (conflicts r) (rows t)); simpl.
  - exists []. now rewrite app_nil_r.
  - exists [stored (nextId t) r]. auto.
Qed.

Lemma createMany_rows (S : list EvmBlockInsert) :
  forall t, exists extra,
    rows (fst (createMany t S)) = rows t ++ extra /\
    snd (createMany t S) = Z.of_nat (length extra).
Proof.
  induction S as [|r S IH]; intros t; simpl.
  - exists []. now rewrite app_nil_r.
  - destruct (insertRow_rows t r) as (e1 & H1 & C1 & _).
    destruct (insertRow t r) as [t1 c1]; simpl in *.
    destruct (IH t1) as (e2 & H2 & C2).
    destruct (createMany t1 S) as [t2 c2]; simpl in *.
    exists (e1 ++ e2). rewrite H2, H1, <- app_assoc. split; [reflexivity|].
    rewrite length_app. lia.
Qed.


Lemma covered_ext (t t' : Table) (r : EvmBlockInsert) (extra : list EvmBlock) :
  rows t' = rows t ++ extra -> covered t r -> covered t' r.
Proof.
  unfold covered. intros -> H. rewrite existsb_app, H. reflexivity.
Qed.

Lemma insertRow_covers (t : Table) (r : EvmBlockInsert) :
  covered (fst (insertRow t r)) r.
Proof.
  unfold covered, insertRow.
  destruct (existsb (conflicts r) (rows t)) eqn:E; simpl; auto.
  rewrite existsb_app; simpl. rewrite conflicts_stored.
  now rewrite orb_true_r.
Qed.

Lemma createMany_covers (S : list EvmBlockInsert) :
  forall t r, In r S \/ covered t r -> covered (fst (createMany t S)) r.
Proof.
  induction S as [|s S IH]; intros t r H; simpl.
  - destruct H as [[]|H]; exact H.
  - destruct (insertRow_rows t s) as (e1 & H1 & _).
    pose proof (insertRow_covers t s) as Hs.
    destruct (insertRow t s) as [t1 c1]; simpl in *.
    specialize (IH t1 r).
    destruct (createMany t1 S) as [t2 c2]; simpl in *.
    apply IH.
    destruct H as [[->|H]|H]; auto.
    right. eapply covered_ext; eauto.
Qed.






End TableFacts.


(** The overlapping batches of the service's own test: 8000..8002 and
    then 8001..8005 insert three rows each, and a replay inserts none. *)
Example upsertBlocks_mixed_batches :
  let blk n h := mkInsert 2 n h "0xparent" 1700000000 in
  let b1 := [blk 8000 "0xa"; blk 8001 "0xb"; blk 8002 "0xc"] in
  let b2 := [blk 8001 "0xb"; blk 8002 "0xc"; blk 8003 "0xd";
             blk 8004 "0xe"; blk 8005 "0xf"] in
  let t1 := fst (upsertBlocks emptyTable b1) in
  snd (upsertBlocks emptyTable b1) = 3 /\
  snd (upsertBlocks t1 b2) = 3 /\
  snd (upsertBlocks (fst (upsertBlocks t1 b2)) b2) = 0.
Proof. repeat split. Qed.

Section QueryFacts.

(** The first row of a stable sort is the leftmost best row. *)
Lemma hd_insertSorted (o : SortOrder) (x : EvmBlock) (l : list EvmBlock) :
  hd_error (insertSorted o x l) =
  match hd_error l with
  | None => Some x
  | Some y => if ordered o x y then Some x else Some y
  end.
Proof.
  destruct l as [|y l]; simpl; auto.
  destruct (ordered o x y); reflexivity.
Qed.

Lemma hd_orderBy_cons (o : SortOrder) (x : EvmBlock) (l : list EvmBlock) :
  hd_error (orderBy o (x :: l)) =
  match hd_error (orderBy o l) with
  | None => Some x
  | Some y => if ordered o x y then Some x else Some y
  end.
Proof. unfold orderBy; simpl. apply hd_insertSorted. Qed.

Lemma hd_orderBy_nil_iff (o : SortOrder) (l : list EvmBlock) :
  hd_error (orderBy o l) = None <-> l = [].
Proof.
  destruct l as [|x l]; [simpl; tauto|].
  rewrite hd_orderBy_cons. split; [|discriminate].
  destruct (hd_error (orderBy o l)); [destruct (ordered o x e)|]; discriminate.
Qed.

Lemma hd_orderBy_desc_max (l : list EvmBlock) (r : EvmBlock) :
  hd_error (orderBy desc l) = Some r ->
  In r l /\ forall x, In x l -> number x <= number r.
Proof.
  revert r. induction l as [|y l IH]; intros r; [discriminate|].
  rewrite hd_orderBy_cons.
  destruct (hd_error (orderBy desc l)) as [m|] eqn:E.
  - destruct (IH m eq_refl) as [Hin Hmax].
    simpl ordered. destruct (Z.leb_spec (number m) (number y)); intros [= <-].
    + split; [now left|]. intros x [<-|Hx]; [lia|].
      specialize (Hmax x Hx). lia.
    + split; [now right|]. intros x [<-|Hx]; [lia|auto].
  - apply hd_orderBy_nil_iff in E; subst l. intros [= <-].
    split; [now left|]. intros x [<-|[]]. lia.
Qed.

Lemma hd_orderBy_asc_min (l : list EvmBlock) (r : EvmBlock) :
  hd_error (orderBy asc l) = Some r ->
  In r l /\ forall x, In x l -> number r <= number x.
Proof.
  revert r. induction l as [|y l IH]; intros r; [discriminate|].
  rewrite hd_orderBy_cons.
  destruct (hd_error (orderBy asc l)) as [m|] eqn:E.
  - destruct (IH m eq_refl) as [Hin Hmin].
    simpl ordered. destruct (Z.leb_spec (number y) (number m)); intros [= <-].
    + split; [now left|]. intros x [<-|Hx]; [lia|].
      specialize (Hmin x Hx). lia.
    + split; [now right|]. intros x [<-|Hx]; [lia|auto].
  - apply hd_orderBy_nil_iff in E; subst l. intros [= <-].
    split; [now left|]. intros x [<-|[]]. lia.
Qed.

(** Among rows of one height the sort keeps the insertion order. *)
Lemma hd_orderBy_same_number (n : Z) (l : list EvmBlock) :
  Forall (fun b => number b = n) l ->
  hd_error (orderBy desc l) = hd_error l.
Proof.
  induction 1 as [|x l Hx Hl IH]; [reflexivity|].
  rewrite hd_orderBy_cons, IH.
  destruct l as [|y l]; simpl; auto.
  inversion Hl; subst. replace (number y <=? number x) with true; auto.
  symmetry. apply Z.leb_le. lia.
Qed.

Lemma byNumber_hd (t : Table) (c n : Z) :
  byNumber t c n =
  hd_error (filter (fun b => (chainId b =? c) && (number b =? n)) (rows t)).
Proof.
  unfold byNumber, findFirst.
  apply hd_orderBy_same_number with (n := n).
  apply Forall_forall. intros b Hb. apply filter_In in Hb.
  destruct Hb as [_ Hb]. apply andb_true_iff in Hb. now apply Z.eqb_eq.
Qed.

Lemma upsertAll_rows (batches : list (list EvmBlockInsert)) :
  forall t, exists extra, rows (upsertAll t batches) = rows t ++ extra.
Proof.
  unfold upsertAll.
  induction batches as [|b bs IH]; intros t; simpl.
  - exists []. now rewrite app_nil_r.
  - destruct (createMany_rows b t) as (e1 & H1 & _).
    destruct (IH (fst (upsertBlocks t b))) as (e2 & H2).
    exists (e1 ++ e2). rewrite H2. unfold upsertBlocks. rewrite H1.
    now rewrite app_assoc.
Qed.

End QueryFacts.

(** C10 — stored rows are never modified or removed.  A header returned
    by [byNumber] is returned unchanged after any further sequence of
    batch writes, and the height of [getLatest] never decreases. *)
Theorem upsertBlocks_preserves_rows
        (t : Table) (batches : list (list EvmBlockInsert)) (c : Z) :
  let t' := upsertAll t batches in
  (forall n b, byNumber t c n = Some b -> byNumber t' c n = Some b) /\
  (forall b, getLatest t c = Some b ->
     exists b', getLatest t' c = Some b' /\ number b <= number b').
Proof.
  cbv zeta. destruct (upsertAll_rows batches t) as (extra & E). split.
  - intros n b. rewrite !byNumber_hd, E, filter_app.
    destruct (filter _ (rows t)); [discriminate|]. auto.
  - intros b. unfold getLatest, findFirst. rewrite E, filter_app.
    intros H. apply hd_orderBy_desc_max in H. destruct H as [Hin _].
    destruct (hd_error (orderBy desc
               (filter (fun b0 => chainId b0 =? c) (rows t) ++
                filter (fun b0 => chainId b0 =? c) extra))) as [b'|] eqn:H'.
    + exists b'. split; [reflexivity|].
      apply hd_orderBy_desc_max in H'. apply H'. apply in_or_app. now left.
    + apply hd_orderBy_nil_iff in H'. apply app_eq_nil in H'.
      destruct H' as [H' _]. rewrite H' in Hin. destruct Hin.
Qed.

(** A head block written after a gap fill: the row of height 5 is kept
    by a later conflicting write. *)
Lemma upsertBlocks_preserves_rows_witness :
  let t := fst (upsertBlocks emptyTable [mkInsert 1 5 "0xh5" "0xh4" 100]) in
  let t' := upsertAll t [[mkInsert 1 5 "0xother" "0xh4" 101];
                         [mkInsert 1 6 "0xh6" "0xh5" 102]] in
  byNumber t' 1 5 = Some (mkEvmBlock 1 1 5 "0xh5" "0xh4" 100) /\
  exists b', getLatest t' 1 = Some b' /\ 5 <= number b'.
Proof.
  cbv zeta.
  pose proof (upsertBlocks_preserves_rows
                (fst (upsertBlocks emptyTable [mkInsert 1 5 "0xh5" "0xh4" 100]))
                [[mkInsert 1 5 "0xother" "0xh4" 101];
                 [mkInsert 1 6 "0xh6" "0xh5" 102]] 1) as [H1 H2].
  split.
  - apply H1. reflexivity.
  - apply (H2 (mkEvmBlock 1 1 5 "0xh5" "0xh4" 100)). reflexivity.
Defined.

(** ** Gap detection *)

Section Ranges.

Lemma zrangeN_length (k : nat) : forall lo, length (zrangeN lo k) = k.
Proof. induction k; intros lo; simpl; auto. Qed.

Lemma zrangeN_In (k : nat) :
  forall lo n, In n (zrangeN lo k) <-> lo <= n < lo + Z.of_nat k.
Proof.
  induction k as [|k IH]; intros lo n; simpl.
  - lia.
  - rewrite IH. lia.
Qed.

Lemma zrangeN_app (k1 k2 : nat) :
  forall lo, zrangeN lo (k1 + k2) =
             zrangeN lo k1 ++ zrangeN (lo + Z.of_nat k1) k2.
Proof.
  induction k1 as [|k1 IH]; intros lo.
  - simpl. now rewrite Z.add_0_r.
  - cbn [Nat.add zrangeN app]. rewrite IH. do 3 f_equal. lia.
Qed.

Lemma zrangeN_sorted (k : nat) : forall lo, StronglySorted Z.lt (zrangeN lo k).
Proof.
  induction k as [|k IH]; intros lo; simpl; constructor; auto.
  apply Forall_forall. intros n Hn. apply zrangeN_In in Hn. lia.
Qed.

Lemma zrange_In (lo hi n : Z) : In n (zrange lo hi) <-> lo <= n <= hi.
Proof. unfold zrange. rewrite zrangeN_In. lia. Qed.

Lemma zrange_nil (lo hi : Z) : hi < lo -> zrange lo hi = [].
Proof.
  intros H. unfold zrange.
  replace (Z.to_nat (hi - lo + 1)) with O by lia. reflexivity.
Qed.

Lemma zrange_cons (lo hi : Z) :
  lo <= hi -> zrange lo hi = lo :: zrange (lo + 1) hi.
Proof.
  intros H. unfold zrange.
  replace (Z.to_nat (hi - lo + 1)) with (S (Z.to_nat (hi - (lo + 1) + 1)))
    by lia.
  reflexivity.
Qed.

Lemma zrange_split (lo mid hi : Z) :
  lo <= mid + 1 -> mid <= hi ->
  zrange lo hi = zrange lo mid ++ zrange (mid + 1) hi.
Proof.
  intros H1 H2. unfold zrange.
  replace (Z.to_nat (hi - lo + 1))
    with (Z.to_nat (mid - lo + 1) + Z.to_nat (hi - (mid + 1) + 1))%nat by lia.
  rewrite zrangeN_app. do 2 f_equal. lia.
Qed.

Lemma zrange_sorted (lo hi : Z) : StronglySorted Z.lt (zrange lo hi).
Proof. apply zrangeN_sorted. Qed.

Lemma StronglySorted_filter (p : Z -> bool) (l : list Z) :
  StronglySorted Z.lt l -> StronglySorted Z.lt (filter p l).
Proof.
  induction 1 as [|x l Hl IH Hx]; simpl; [constructor|].
  destruct (p x); auto. constructor; auto.
  apply Forall_forall. intros y Hy. apply filter_In in Hy.
  rewrite Forall_forall in Hx. apply Hx, Hy.
Qed.

Lemma firstn_In (A : Type) (k : nat) :
  forall (l : list A) (x : A), In x (firstn k l) -> In x l.
Proof.
  induction k as [|k IH]; intros [|y l] x; simpl; try tauto.
  intros [->|H]; auto.
Qed.

Lemma StronglySorted_firstn (k : nat) (l : list Z) :
  StronglySorted Z.lt l -> StronglySorted Z.lt (firstn k l).
Proof.
  intros H. revert k. induction H as [|x l Hl IH Hx]; intros [|k]; simpl;
    try constructor; auto.
  apply Forall_forall. intros y Hy.
  rewrite Forall_forall in Hx. apply Hx. revert Hy. apply firstn_In.
Qed.

Lemma existsb_same_elements (f : Z -> bool) (l l' : list Z) :
  (forall x, In x l <-> In x l') -> existsb f l = existsb f l'.
Proof.
  intros H. apply eq_true_iff_eq. rewrite !existsb_exists.
  split; intros (x & Hx & Fx); exists x; split; auto; now apply H.
Qed.

End Ranges.

Section Loops.

Variable lim : nat.

Lemma pushRange_spec (fuel : nat) :
  forall n e acc,
    fuel = Z.to_nat (e - n + 1) ->
    pushRange fuel lim n e acc =
    acc ++ firstn (lim - length acc) (zrangeN n fuel).
Proof.
  induction fuel as [|f IH]; intros n e acc Hf; simpl.
  - now rewrite firstn_nil, app_nil_r.
  - replace (n <=? e) with true by (symmetry; apply Z.leb_le; lia).
    simpl. destruct (Nat.ltb_spec (length acc) lim) as [Hl|Hl].
    + rewrite IH by lia. rewrite length_app; simpl.
      replace (lim - length acc)%nat with (S (lim - (length acc + 1))) by lia.
      simpl. now rewrite <- app_assoc.
    + replace (lim - length acc)%nat with O by lia.
      simpl. now rewrite app_nil_r.
Qed.

Lemma collectMissing_spec (ranges : list MissingRange) :
  forall acc, (length acc <= lim)%nat ->
    collectMissing lim ranges acc =
    acc ++ firstn (lim - length acc) (flat_map expand ranges).
Proof.
  induction ranges as [|r rest IH]; intros acc Ha; simpl.
  - now rewrite firstn_nil, app_nil_r.
  - rewrite pushRange_spec by reflexivity.
    fold (zrange (start_missing r) (end_missing r)). fold (expand r).
    rewrite firstn_app.
    set (k := (lim - length acc)%nat).
    assert (Hk : (length (firstn k (expand r)) <= k)%nat)
      by apply firstn_le_length.
    destruct (Nat.leb_spec lim (length (acc ++ firstn k (expand r))))
      as [Hl|Hl]; rewrite length_app in Hl.
    + rewrite length_firstn in Hl.
      replace (k - length (expand r))%nat with O by lia.
      simpl. now rewrite app_nil_r.
    + rewrite IH by (rewrite length_app; lia).
      rewrite length_app, <- app_assoc. do 3 f_equal.
      rewrite length_firstn in *. lia.
Qed.

Lemma firstn_flat_map_firstn (gs : list MissingRange) :
  Forall (fun g => expand g <> []) gs ->
  forall L m, (m <= L)%nat ->
    firstn m (flat_map expand (firstn L gs)) = firstn m (flat_map expand gs).
Proof.
  induction 1 as [|g gs Hg Hgs IH]; intros L m Hm.
  - now rewrite firstn_nil.
  - destruct L as [|L].
    + replace m with O by lia. reflexivity.
    + simpl. rewrite !firstn_app. f_equal.
      apply IH. destruct (expand g); [congruence|simpl; lia].
Qed.

End Loops.

Section Gaps.

Lemma gapRow_lead (l : list Z) : flat_map gapRow (lead l) = gaps l.
Proof.
  induction l as [|a rest IH]; simpl; auto.
  rewrite IH. destruct rest as [|b r]; reflexivity.
Qed.

Lemma gaps_nonempty (l : list Z) : Forall (fun g => expand g <> []) (gaps l).
Proof.
  induction l as [|a rest IH]; simpl; [constructor|].
  destruct rest as [|b r]; [constructor|].
  destruct (Z.gtb_spec b (a + 1)); simpl; auto.
  constructor; auto.
  unfold expand; simpl. rewrite zrange_cons by lia. discriminate.
Qed.

Lemma last_cons_default (l : list Z) (a b : Z) :
  last (b :: l) a = last l b.
Proof.
  revert a b. induction l as [|c l IH]; intros a b; [reflexivity|].
  change (last (b :: c :: l) a) with (last (c :: l) a).
  now rewrite (IH a c), (IH b c).
Qed.

Lemma sorted_last_ge (l : list Z) :
  forall a, StronglySorted Z.le (a :: l) ->
  forall x, In x (a :: l) -> x <= last l a.
Proof.
  induction l as [|b l IH]; intros a Hs x Hx.
  - destruct Hx as [->|[]]. simpl. lia.
  - rewrite last_cons_default.
    inversion Hs as [|? ? Hs' Ha]; subst.
    inversion Ha as [|? ? Hab _]; subst.
    destruct Hx as [->|Hx].
    + transitivity b; auto. apply IH; [assumption | now left].
    + apply IH; assumption.
Qed.

(** On an ascending list the expanded gaps are exactly the heights
    strictly inside the list's range that the list does not contain. *)
Lemma gaps_expand (l : list Z) :
  forall a, StronglySorted Z.le (a :: l) ->
  flat_map expand (gaps (a :: l)) =
  filter (fun n => negb (existsb (Z.eqb n) (a :: l)))
         (zrange (a + 1) (last l a - 1)).
Proof.
  induction l as [|b l IH]; intros a Hs.
  - simpl. now rewrite zrange_nil by lia.
  - inversion Hs as [|? ? Hb Ha]; subst.
    inversion Ha as [|? ? Hab _]; subst.
    assert (Hlast : b <= last l b).
    { apply sorted_last_ge; [assumption | now left]. }
    inversion Hb as [|? ? _ Hbl]; subst.
    change (gaps (a :: b :: l))
      with ((if b >? a + 1 then [mkRange (a + 1) (b - 1)] else [])
              ++ gaps (b :: l)).
    rewrite flat_map_app, (IH b Hb), last_cons_default.
    assert (Hrest :
      filter (fun n => negb (existsb (Z.eqb n) (a :: b :: l)))
             (zrange (b + 1) (last l b - 1)) =
      filter (fun n => negb (existsb (Z.eqb n) (b :: l)))
             (zrange (b + 1) (last l b - 1))).
    { apply filter_ext_in. intros n Hn. apply zrange_In in Hn.
      simpl. replace (n =? a) with false; auto.
      symmetry. apply Z.eqb_neq. lia. }
    destruct (Z.gtb_spec b (a + 1)) as [Hgt|Hle].
    + rewrite (@zrange_split (a + 1) (b - 1) (last l b - 1)) by lia.
      rewrite filter_app. f_equal.
      * simpl. rewrite app_nil_r. unfold expand; simpl.
        symmetry. apply forallb_filter_id. apply forallb_forall.
        intros n Hn. apply zrange_In in Hn.
        apply negb_true_iff. apply not_true_is_false. intros E0.
        assert (E : existsb (Z.eqb n) (a :: b :: l) = true) by exact E0.
        apply existsb_exists in E. destruct E as (x & Hx & E).
        apply Z.eqb_eq in E; subst x.
        destruct Hx as [->|[->|Hx]]; try lia.
        rewrite Forall_forall in Hbl. specialize (Hbl n Hx). lia.
      * replace (b - 1 + 1) with b by lia.
        destruct (Z.le_gt_cases b (last l b - 1)) as [Hb1|Hb1].
        -- rewrite (@zrange_cons b) by lia. simpl.
           rewrite Z.eqb_refl, orb_true_r. simpl.
           symmetry. exact Hrest.
        -- rewrite (@zrange_nil b), (@zrange_nil (b + 1)) by lia.
           reflexivity.
    + simpl app.
      assert (Hcase : b = a \/ b = a + 1) by lia.
      destruct Hcase as [->| ->].
      * symmetry. exact Hrest.
      * destruct (Z.le_gt_cases (a + 1) (last l (a + 1) - 1)) as [Hb1|Hb1].
        -- rewrite (@zrange_cons (a + 1)) by lia. simpl.
           rewrite Z.eqb_refl, orb_true_r. simpl.
           symmetry. exact Hrest.
        -- rewrite (@zrange_nil (a + 1)), (@zrange_nil (a + 1 + 1)) by lia.
           reflexivity.
Qed.

End Gaps.

Section Sorting.

Lemma insertSorted_In (o : SortOrder) (x z : EvmBlock) (l : list EvmBlock) :
  In z (insertSorted o x l) <-> z = x \/ In z l.
Proof.
  induction l as [|y l IH]; simpl.
  - intuition.
  - destruct (ordered o x y); simpl; rewrite ?IH; intuition.
Qed.

Lemma orderBy_In (o : SortOrder) (z : EvmBlock) (l : list EvmBlock) :
  In z (orderBy o l) <-> In z l.
Proof.
  induction l as [|x l IH]; simpl; [tauto|].
  rewrite insertSorted_In, IH. intuition.
Qed.

Lemma insertSorted_asc_sorted (x : EvmBlock) (l : list EvmBlock) :
  StronglySorted Z.le (map number l) ->
  StronglySorted Z.le (map number (insertSorted asc x l)).
Proof.
  induction l as [|y l IH]; intros Hs; simpl.
  - repeat constructor.
  - simpl in Hs. inversion Hs as [|? ? Hl Hy]; subst.
    destruct (Z.leb_spec (number x) (number y)); simpl.
    + constructor; auto. constructor; auto.
      eapply Forall_impl; [|exact Hy]. intros; simpl in *; lia.
    + constructor; auto.
      apply Forall_forall. intros n Hn. apply in_map_iff in Hn.
      destruct Hn as (z & <- & Hz). apply insertSorted_In in Hz.
      destruct Hz as [->|Hz]; [lia|].
      rewrite Forall_forall in Hy. apply Hy. now apply in_map.
Qed.

Lemma orderBy_asc_sorted (l : list EvmBlock) :
  StronglySorted Z.le (map number (orderBy asc l)).
Proof.
  induction l as [|x l IH]; simpl; [constructor|].
  now apply insertSorted_asc_sorted.
Qed.

Lemma last_In (l : list Z) : forall a, In (last l a) (a :: l).
Proof.
  induction l as [|b l IH]; intros a; [now left|].
  rewrite last_cons_default. right. apply IH.
Qed.

Lemma fold_min_spec (hs : list Z) :
  forall h, In (fold_left Z.min hs h) (h :: hs) /\
            forall x, In x (h :: hs) -> fold_left Z.min hs h <= x.
Proof.
  induction hs as [|k hs IH]; intros h; simpl.
  - split; [now left|]. intros x [->|[]]. lia.
  - destruct (IH (Z.min h k)) as [Hin Hle]. split.
    + destruct Hin as [Hin|Hin]; [|auto].
      rewrite <- Hin. destruct (Z.min_spec h k) as [[_ ->]|[_ ->]]; auto.
    + intros x Hx.
      assert (Hm : fold_left Z.min hs (Z.min h k) <= Z.min h k)
        by (apply Hle; now left).
      destruct Hx as [->|[->|Hx]]; try lia.
      apply Hle. now right.
Qed.

Lemma fold_max_spec (hs : list Z) :
  forall h, In (fold_left Z.max hs h) (h :: hs) /\
            forall x, In x (h :: hs) -> x <= fold_left Z.max hs h.
Proof.
  induction hs as [|k hs IH]; intros h; simpl.
  - split; [now left|]. intros x [->|[]]. lia.
  - destruct (IH (Z.max h k)) as [Hin Hle]. split.
    + destruct Hin as [Hin|Hin]; [|auto].
      rewrite <- Hin. destruct (Z.max_spec h k) as [[_ ->]|[_ ->]]; auto.
    + intros x Hx.
      assert (Hm : Z.max h k <= fold_left Z.max hs (Z.max h k))
        by (apply Hle; now left).
      destruct Hx as [->|[->|Hx]]; try lia.
      apply Hle. now right.
Qed.

Lemma minHeight_spec (t : Table) (c m : Z) :
  minHeight t c = Some m <->
  In m (heights t c) /\ forall x, In x (heights t c) -> m <= x.
Proof.
  unfold minHeight. destruct (heights t c) as [|h hs].
  - split; [discriminate | intros [[] _]].
  - destruct (fold_min_spec hs h) as [Hin Hle]. split.
    + intros [= <-]. auto.
    + intros [Hm Hlow]. f_equal.
      specialize (Hle m Hm). specialize (Hlow _ Hin). lia.
Qed.

Lemma maxHeight_spec (t : Table) (c m : Z) :
  maxHeight t c = Some m <->
  In m (heights t c) /\ forall x, In x (heights t c) -> x <= m.
Proof.
  unfold maxHeight. destruct (heights t c) as [|h hs].
  - split; [discriminate | intros [[] _]].
  - destruct (fold_max_spec hs h) as [Hin Hle]. split.
    + intros [= <-]. auto.
    + intros [Hm Hup]. f_equal.
      specialize (Hle m Hm). specialize (Hup _ Hin). lia.
Qed.

End Sorting.

(** The gap detector returns the first [lim] missing heights. *)
Lemma findMissingWithLimit_firstn (lim : nat) (t : Table) (c : Z) :
  findMissingWithLimit lim t c = firstn lim (missingHeights t c).
Proof.
  unfold findMissingWithLimit, findFirst, missingHeights.
  set (F := filter (fun b => chainId b =? c) (rows t)).
  destruct (hd_error (orderBy asc F)) as [first|] eqn:Ea.
  2:{ apply hd_orderBy_nil_iff in Ea.
      unfold minHeight, heights. fold F. rewrite Ea. simpl.
      now rewrite firstn_nil. }
  destruct (hd_error (orderBy desc F)) as [last_|] eqn:Ed.
  2:{ apply hd_orderBy_nil_iff in Ed. rewrite Ed in Ea. discriminate. }
  pose proof (hd_orderBy_asc_min _ Ea) as [Hfin Hfmin].
  pose proof (hd_orderBy_desc_max _ Ed) as [Hlin Hlmax].
  assert (Hmin : minHeight t c = Some (number first)).
  { apply minHeight_spec. unfold heights. fold F. split.
    - now apply in_map.
    - intros x Hx. apply in_map_iff in Hx. destruct Hx as (b & <- & Hb). auto. }
  assert (Hmax : maxHeight t c = Some (number last_)).
  { apply maxHeight_spec. unfold heights. fold F. split.
    - now apply in_map.
    - intros x Hx. apply in_map_iff in Hx. destruct Hx as (b & <- & Hb). auto. }
  rewrite Hmin, Hmax. cbv zeta.
  replace (number last_ <? number first) with false
    by (symmetry; apply Z.ltb_ge; auto).
  unfold queryRanges, orderedCte.
  assert (HF : filter (fun b => (chainId b =? c) &&
                         ((number first <=? number b) &&
                          (number b <=? number last_))) (rows t) = F).
  { unfold F. apply filter_ext_in. intros b Hb.
    destruct (chainId b =? c) eqn:Ec; simpl; auto.
    assert (Hb' : In b F) by (apply filter_In; auto).
    apply andb_true_iff. split; apply Z.leb_le; auto. }
  rewrite HF, gapRow_lead.
  rewrite collectMissing_spec by (simpl; lia). simpl length.
  rewrite Nat.sub_0_r. simpl app.
  rewrite firstn_flat_map_firstn by (auto using gaps_nonempty).
  f_equal.
  pose proof (orderBy_asc_sorted F) as Hs.
  assert (Hhd : hd_error (map number (orderBy asc F)) = Some (number first)).
  { destruct (orderBy asc F); [discriminate|]. injection Ea as ->. reflexivity. }
  destruct (map number (orderBy asc F)) as [|a l] eqn:El; [discriminate|].
  injection Hhd as ->.
  assert (Hsame : forall x, In x (number first :: l) <-> In x (heights t c)).
  { intros x. rewrite <- El. unfold heights. fold F. rewrite !in_map_iff.
    split; intros (b & E & Hb); exists b; split; auto;
      first [ now apply orderBy_In in Hb | now apply orderBy_In ]. }
  rewrite gaps_expand by assumption.
  assert (Hlast : last l (number first) = number last_).
  { apply Z.le_antisymm.
    - pose proof (last_In l (number first)) as Hin.
      apply Hsame in Hin. apply maxHeight_spec in Hmax. now apply Hmax.
    - apply sorted_last_ge; auto. apply Hsame.
      apply maxHeight_spec in Hmax. apply Hmax. }
  rewrite Hlast. apply filter_ext. intros n. f_equal.
  unfold isStored. now apply existsb_same_elements.
Qed.

Lemma missingHeights_sorted (t : Table) (c : Z) :
  StronglySorted Z.lt (missingHeights t c).
Proof.
  unfold missingHeights.
  destruct (minHeight t c); [|constructor].
  destruct (maxHeight t c); [|constructor].
  apply StronglySorted_filter, zrange_sorted.
Qed.

Lemma missingHeights_In (t : Table) (c n : Z) :
  In n (missingHeights t c) <->
  exists first last_,
    minHeight t c = Some first /\ maxHeight t c = Some last_ /\
    first < n < last_ /\ isStored t c n = false.
Proof.
  unfold missingHeights.
  destruct (minHeight t c) as [first|];
    [destruct (maxHeight t c) as [last_|]|].
  - rewrite filter_In, zrange_In, negb_true_iff. split.
    + intros [H1 H2]. exists first, last_. repeat split; auto; lia.
    + intros (f & l & [= <-] & [= <-] & H1 & H2). split; [lia|auto].
  - split; [intros [] | intros (f & l & _ & H & _); discriminate].
  - split; [intros [] | intros (f & l & H & _); discriminate].
Qed.

(** C2 — the gap detector's output is bounded.  Every call returns at
    most [limit] = 10 heights, strictly ascending, each strictly
    between the least and the greatest stored height of the chain; a
    chain without stored blocks yields the empty list. *)
Theorem findMissingFullRange_bounded (t : Table) (c : Z) :
  (length (findMissingFullRange t c) <= limit)%nat /\
  StronglySorted Z.lt (findMissingFullRange t c) /\
  (forall n, In n (findMissingFullRange t c) ->
     exists first last_,
       minHeight t c = Some first /\ maxHeight t c = Some last_ /\
       (forall h, In h (heights t c) -> first <= h <= last_) /\
       first < n < last_) /\
  (heights t c = [] -> findMissingFullRange t c = []).
Proof.
  unfold findMissingFullRange. rewrite findMissingWithLimit_firstn.
  split; [apply firstn_le_length|].
  split; [apply StronglySorted_firstn, missingHeights_sorted|].
  split.
  - intros n Hn. apply firstn_In, missingHeights_In in Hn.
    destruct Hn as (first & last_ & Hmin & Hmax & Hn & _).
    exists first, last_. repeat split; auto; try lia.
    + apply minHeight_spec in Hmin. now apply Hmin.
    + apply maxHeight_spec in Hmax. now apply Hmax.
  - intros H. unfold missingHeights, minHeight. rewrite H.
    now rewrite firstn_nil.
Qed.

(** The table of the service test: islands 10000..10005, 10010..10015
    and 10020..10025 of chain 3, and the unknown chain 999. *)
Lemma findMissingFullRange_bounded_witness :
  let t := fst (upsertBlocks emptyTable
                  (island 3 10000 10005 ++ island 3 10010 10015 ++
                   island 3 10020 10025)) in
  findMissingFullRange t 3 =
    [10006; 10007; 10008; 10009; 10016; 10017; 10018; 10019] /\
  (exists first last_,
     minHeight t 3 = Some first /\ maxHeight t 3 = Some last_ /\
     (forall h, In h (heights t 3) -> first <= h <= last_) /\
     first < 10016 < last_) /\
  findMissingFullRange t 999 = [].
Proof.
  cbv zeta.
  set (t := fst (upsertBlocks emptyTable _)).
  destruct (findMissingFullRange_bounded t 3) as (_ & _ & Hin & _).
  destruct (findMissingFullRange_bounded t 999) as (_ & _ & _ & Hnil).
  split; [reflexivity|]. split.
  - apply Hin. vm_compute. tauto.
  - apply Hnil. reflexivity.
Defined.

(** C3 — the gap detector is complete within its cap.  With [K] missing
    heights strictly inside the stored range, the result is the list
    of the [min K limit] smallest of them in ascending order: all of
    them when [K <= limit], and 3011..3020 for the islands 3000..3010,
    3050..3060 and 3100..3110. *)
Theorem findMissingFullRange_complete (t : Table) (c : Z) :
  let K := length (missingHeights t c) in
  findMissingFullRange t c = firstn (Nat.min K limit) (missingHeights t c) /\
  length (findMissingFullRange t c) = Nat.min K limit /\
  StronglySorted Z.lt (missingHeights t c) /\
  (forall n, In n (missingHeights t c) <->
     exists first last_,
       minHeight t c = Some first /\ maxHeight t c = Some last_ /\
       first < n < last_ /\ isStored t c n = false) /\
  ((K <= limit)%nat -> findMissingFullRange t c = missingHeights t c) /\
  (let islands := fst (upsertBlocks emptyTable
                         (island 99 3000 3010 ++ island 99 3050 3060 ++
                          island 99 3100 3110)) in
   length (missingHeights islands 99) = 78%nat /\
   findMissingFullRange islands 99 = zrange 3011 3020).
Proof.
  cbv zeta. unfold findMissingFullRange.
  rewrite findMissingWithLimit_firstn.
  assert (E : firstn limit (missingHeights t c) =
              firstn (Nat.min (length (missingHeights t c)) limit)
                     (missingHeights t c)).
  { destruct (Nat.le_ge_cases (length (missingHeights t c)) limit) as [H|H].
    - rewrite Nat.min_l by assumption.
      now rewrite firstn_all, firstn_all2 by assumption.
    - now rewrite Nat.min_r by assumption. }
  split; [exact E|].
  split; [rewrite length_firstn; apply Nat.min_comm|].
  split; [apply missingHeights_sorted|].
  split; [intros n; apply missingHeights_In|].
  split; [intros H; now apply firstn_all2|].
  split; vm_compute; reflexivity.
Qed.

Lemma findMissingFullRange_complete_witness :
  let t := fst (upsertBlocks emptyTable
                  (island 2 2000 2005 ++ island 2 2010 2015)) in
  findMissingFullRange t 2 = [2006; 2007; 2008; 2009] /\
  findMissingFullRange t 2 = missingHeights t 2.
Proof.
  cbv zeta.
  set (t := fst (upsertBlocks emptyTable _)).
  destruct (findMissingFullRange_complete t 2) as (_ & _ & _ & _ & H & _).
  split; [reflexivity|].
  apply H. vm_compute. lia.
Defined.

(** ** The ingestion scheduler *)

Section WatcherFacts.

Context {rpc : RpcService}.
Variable dbFault : DbOp -> option Exn.

Lemma grows_refl (w : World) : grows w w.
Proof. split; exists []; now rewrite app_nil_r. Qed.

Lemma grows_trans (w1 w2 w3 : World) : grows w1 w2 -> grows w2 w3 -> grows w1 w3.
Proof.
  intros [[a1 H1] [l1 L1]] [[a2 H2] [l2 L2]]. split.
  - exists (a1 ++ a2). now rewrite H2, H1, app_assoc.
  - exists (l1 ++ l2). now rewrite L2, L1, app_assoc.
Qed.

Lemma grows_covered (w w' : World) (r : EvmBlockInsert) :
  grows w w' -> covered (db w) r -> covered (db w') r.
Proof. intros [[a H] _]. now apply covered_ext with (extra := a). Qed.

Lemma grows_logged (w w' : World) (line : Level * string) :
  grows w w' -> In line (logs w) -> In line (logs w').
Proof. intros [_ [l H]] Hin. rewrite H. apply in_or_app. now left. Qed.

(** One head tick of one chain, step by step. *)
Lemma tick_run (c : Z) (w : World) :
  tick dbFault c w =
  match headRow c with
  | inl e => (inl e, w)
  | inr (head, row) =>
      match dbFault (OpUpsert [row]) with
      | Some e => (inl e, w)
      | None =>
          (inr tt,
           mkWorld (fst (upsertBlocks (db w) [row]))
                   (logs w ++ [(LOG, ("[" ++ getChainName c ++
                       "] inserted head block " ++ toString head)%string)]))
      end
  end.
Proof.
  unfold tick, headRow, bind, await, evmBlocks_upsertBlocks, logger.
  destruct (getHeadNumber c) as [e|head]; [reflexivity|].
  destruct (getBlockByNumber c head) as [e|b]; [reflexivity|].
  destruct (mapped c b) as [e|row]; [reflexivity|].
  destruct (dbFault (OpUpsert [row])); [reflexivity|].
  destruct (upsertBlocks (db w) [row]); reflexivity.
Qed.

(** The guarded body never throws and never loses a row or a line. *)
Lemma guarded_total (work : Z -> Action unit) (c : Z) (w : World) :
  grows w (snd (work c w)) ->
  fst (guarded work c w) = inr tt /\ grows w (snd (guarded work c w)).
Proof.
  unfold guarded, tryCatch, logger. intros G.
  destruct (work c w) as [[e|[]] w1]; simpl in *; split; auto.
  apply grows_trans with (w2 := w1); auto.
  split; simpl; [exists []; now rewrite app_nil_r | eauto].
Qed.

Lemma forOf_guarded_total (work : Z -> Action unit) :
  (forall c w, grows w (snd (work c w))) ->
  forall cs w,
    fst (forOf cs (guarded work) w) = inr tt /\
    grows w (snd (forOf cs (guarded work) w)).
Proof.
  intros Hw. induction cs as [|c cs IH]; intros w; simpl.
  - split; [reflexivity | apply grows_refl].
  - unfold bind.
    destruct (@guarded_total work c w (Hw c w)) as [E G].
    destruct (guarded work c w) as [[e|[]] w1]; simpl in *; [discriminate|].
    destruct (IH w1) as [E' G']. split; auto.
    eapply grows_trans; eauto.
Qed.

Lemma forOf_app (cs1 cs2 : list Z) (body : Z -> Action unit) :
  (forall c w, fst (body c w) = inr tt) ->
  forall w, forOf (cs1 ++ cs2) body w = forOf cs2 body (snd (forOf cs1 body w)).
Proof.
  intros Hb. induction cs1 as [|c cs1 IH]; intros w; simpl; auto.
  unfold bind. specialize (Hb c w).
  destruct (body c w) as [[e|[]] w1]; simpl in *; [discriminate|].
  apply IH.
Qed.

Lemma tick_grows (c : Z) (w : World) : grows w (snd (tick dbFault c w)).
Proof.
  rewrite tick_run.
  destruct (headRow c) as [e|[head row]]; [apply grows_refl|].
  destruct (dbFault (OpUpsert [row])); [apply grows_refl|].
  split; simpl; [|eauto].
  destruct (createMany_rows [row] (db w)) as (a & H & _). eauto.
Qed.

Lemma headTickDone_grows (c : Z) (w w' : World) :
  grows w w' -> headTickDone dbFault c w -> headTickDone dbFault c w'.
Proof.
  unfold headTickDone. intros G.
  destruct (headRow c) as [e|[head row]]; [apply grows_logged; auto|].
  destruct (dbFault (OpUpsert [row])); [apply grows_logged; auto|].
  intros [H1 H2]. split; [eapply grows_covered | eapply grows_logged]; eauto.
Qed.

Lemma guarded_tick_done (c : Z) (w : World) :
  headTickDone dbFault c (snd (guarded (tick dbFault) c w)).
Proof.
  unfold guarded, tryCatch, headTickDone. rewrite tick_run.
  destruct (headRow c) as [e|[head row]]; simpl.
  - apply in_or_app. right. now left.
  - destruct (dbFault (OpUpsert [row])); simpl.
    + apply in_or_app. right. now left.
    + split; [|apply in_or_app; right; now left].
      apply (@createMany_covers [row] (db w) row). left. now left.
Qed.

Lemma growing_bind (A B : Type) (m : Action A) (k : A -> Action B) :
  growing m -> (forall a, growing (k a)) -> growing (bind m k).
Proof.
  intros Hm Hk w. unfold bind. specialize (Hm w).
  destruct (m w) as [[e|a] w1]; simpl in *; auto.
  eapply grows_trans; [exact Hm | apply Hk].
Qed.

Lemma growing_await (A : Type) (p : Exn + A) : growing (await p).
Proof. intros w. apply grows_refl. Qed.

Lemma growing_logger (lvl : Level) (msg : string) : growing (logger lvl msg).
Proof.
  intros w. split; simpl; [exists []; now rewrite app_nil_r | eauto].
Qed.

Lemma growing_upsertBlocks (data : list EvmBlockInsert) :
  growing (evmBlocks_upsertBlocks dbFault data).
Proof.
  intros w. unfold evmBlocks_upsertBlocks.
  destruct (dbFault (OpUpsert data)); [apply grows_refl|].
  destruct (createMany_rows data (db w)) as (a & H & _).
  unfold upsertBlocks. destruct (createMany (db w) data) as [t' n].
  split; simpl in *; [eauto | exists []; now rewrite app_nil_r].
Qed.

Lemma scanClientTip_growing (c : Z) : growing (scanClientTip dbFault c).
Proof.
  unfold scanClientTip.
  apply growing_bind.
  { intros w. unfold evmBlocks_getLatest.
    destruct (dbFault (OpGetLatest c)); apply grows_refl. }
  intros [b|]; [|apply growing_logger].
  apply growing_bind.
  { intros w. unfold evmBlocks_findMissingFullRange.
    destruct (dbFault (OpFindMissing c)); apply grows_refl. }
  intros missing. destruct (length missing =? 0)%nat; [apply growing_logger|].
  apply growing_bind; [apply growing_await|]. intros blocks.
  apply growing_bind; [apply growing_await|]. intros data.
  apply growing_bind; [apply growing_upsertBlocks|]. intros _.
  apply growing_logger.
Qed.

Lemma collect_fail (A : Type) (results : list (Exn + A)) (e : Exn) :
  In (inl e) results -> exists e', collect results = inl e'.
Proof.
  induction results as [|r rs IH]; intros H; [destruct H|].
  destruct r as [e0|a]; simpl; [eauto|].
  destruct H as [H|H]; [discriminate|].
  destruct (IH H) as (e' & ->). eauto.
Qed.

Lemma getLatest_none_no_missing (t : Table) (c : Z) :
  getLatest t c = None -> findMissingFullRange t c = [].
Proof.
  unfold getLatest, findMissingFullRange, findMissingWithLimit. intros ->.
  now destruct (findFirst _ asc t).
Qed.

(** A gap scan of one chain in which a request fails throws and leaves
    the world as it found it. *)
Lemma scanClientTip_request_fails (c n : Z) (e : Exn) (w : World) :
  In n (findMissingFullRange (db w) c) ->
  getBlockByNumber c n = inl e ->
  exists e', scanClientTip dbFault c w = (inl e', w).
Proof.
  intros Hn He. unfold scanClientTip, bind, evmBlocks_getLatest,
    evmBlocks_findMissingFullRange.
  destruct (dbFault (OpGetLatest c)) as [e1|]; [eauto|].
  destruct (getLatest (db w) c) as [b|] eqn:El.
  2:{ rewrite (getLatest_none_no_missing _ _ El) in Hn. destruct Hn. }
  destruct (dbFault (OpFindMissing c)) as [e2|]; [eauto|].
  destruct (findMissingFullRange (db w) c) as [|m ms] eqn:Em; [destruct Hn|].
  cbn [length Nat.eqb]. unfold await, promiseAll.
  destruct (@collect_fail _ (map (fun n0 => getBlockByNumber c n0) (m :: ms)) e)
    as (e' & ->); [|eauto].
  rewrite <- He. apply in_map with (f := fun n0 => getBlockByNumber c n0).
  exact Hn.
Qed.

(** C4 — failure isolation of the head tick.  The tick never throws,
    and for every configured chain whose own [getHeadNumber],
    [getBlockByNumber] and upsert succeed, the head block has been
    written (it is stored, or a stored row already collides with it)
    and reported when the tick ends, whatever the other chains'
    steps did; a chain whose step failed has its error logged. *)
Theorem handleCron_isolates_chains (w : World) (c : Z) :
  In c getConfiguredChainIds ->
  let w' := snd (handleCron dbFault w) in
  fst (handleCron dbFault w) = inr tt /\
  grows w w' /\
  (forall head b ts,
     getHeadNumber c = inr head ->
     getBlockByNumber c head = inr (Some b) ->
     toNumber (rb_timestamp b) = Num ts ->
     let row := mkInsert c (rb_number b) (rb_hash b) (rb_parentHash b) ts in
     dbFault (OpUpsert [row]) = None ->
     covered (db w') row /\
     In (LOG, ("[" ++ getChainName c ++ "] inserted head block "
                   ++ toString head)%string) (logs w')) /\
  (forall e, headRow c = inl e ->
     In (ERROR, ("[" ++ toString c ++ "] " ++ errorText e)%string) (logs w')) /\
  (forall head row e,
     headRow c = inr (head, row) -> dbFault (OpUpsert [row]) = Some e ->
     In (ERROR, ("[" ++ toString c ++ "] " ++ errorText e)%string) (logs w')).
Proof.
  intros Hc. cbv zeta. unfold handleCron.
  destruct (forOf_guarded_total (tick dbFault) tick_grows
              getConfiguredChainIds w) as [E G].
  split; [exact E|]. split; [exact G|].
  assert (D : headTickDone dbFault c
                (snd (forOf getConfiguredChainIds (guarded (tick dbFault)) w))).
  { clear E G. revert w.
    induction getConfiguredChainIds as [|x cs IH]; intros w; [destruct Hc|].
    simpl. unfold bind.
    destruct (@guarded_total (tick dbFault) x w (tick_grows x w)) as [E1 G1].
    pose proof (guarded_tick_done x w) as D1.
    destruct (guarded (tick dbFault) x w) as [[e|[]] w1]; simpl in *;
      [discriminate|].
    destruct Hc as [->|Hc]; [|now apply IH].
    eapply headTickDone_grows; [|exact D1].
    apply forOf_guarded_total. exact tick_grows. }
  unfold headTickDone in D. split.
  - intros head b ts Hh Hb Ht Hf. unfold headRow in D.
    rewrite Hh, Hb in D. unfold mapped in D. rewrite Ht in D.
    rewrite Hf in D. exact D.
  - split.
    + intros e He. now rewrite He in D.
    + intros head row e He Hf. now rewrite He, Hf in D.
Qed.

End WatcherFacts.

(** Chains 1, 2 and 3 with a failing [getHeadNumber] of chain 2: the
    heads of chains 1 and 3 are stored and the failure is logged. *)
Lemma handleCron_isolates_chains_witness :
  let w' := snd (handleCron (rpc := isolationRpc) noFault emptyWorld) in
  (exists b, byNumber (db w') 1 1000 = Some b /\ hash b = "0xhead1000") /\
  (exists b, byNumber (db w') 3 3000 = Some b /\ hash b = "0xhead3000") /\
  covered (db w') (mkInsert 3 3000 "0xhead3000" "0xparent3000" 1700000000) /\
  In (ERROR, "[2] RpcUnavailable") (logs w').
Proof.
  cbv zeta.
  destruct (@handleCron_isolates_chains isolationRpc noFault emptyWorld 3)
    as (_ & _ & H3 & _); [simpl; tauto|].
  destruct (@handleCron_isolates_chains isolationRpc noFault emptyWorld 2)
    as (_ & _ & _ & H2 & _); [simpl; tauto|].
  split; [eexists; split; vm_compute; reflexivity|].
  split; [eexists; split; vm_compute; reflexivity|].
  split.
  - apply (H3 3000 (mkRpcBlock 3000 "0xhead3000" "0xparent3000" 1700000000)
              1700000000); reflexivity.
  - apply (H2 "RpcUnavailable"). reflexivity.
Defined.

Section GapScanFacts.

Context {rpc : RpcService}.
Variable dbFault : DbOp -> option Exn.

(** C5 — a failed request discards the chain's batch.  When the gap
    scan reaches a chain and one of the requests for its missing
    heights rejects, the chain's scan throws without changing the
    table, the error is logged, and the scan goes on with the
    remaining chains and completes. *)
Theorem scanTipWindows_discards_failed_chain
        (pre post : list Z) (c n : Z) (e : Exn) (w : World) :
  getConfiguredChainIds = pre ++ c :: post ->
  let w1 := snd (forOf pre (guarded (scanClientTip dbFault)) w) in
  In n (findMissingFullRange (db w1) c) ->
  getBlockByNumber c n = inl e ->
  exists e',
    scanClientTip dbFault c w1 = (inl e', w1) /\
    let w2 := mkWorld (db w1)
                (logs w1 ++ [(ERROR, ("[" ++ toString c ++ "] "
                                          ++ errorText e')%string)]) in
    scanTipWindows dbFault w =
      forOf post (guarded (scanClientTip dbFault)) w2 /\
    fst (scanTipWindows dbFault w) = inr tt /\
    grows w2 (snd (scanTipWindows dbFault w)).
Proof.
  intros Hcs w1 Hn He.
  destruct (scanClientTip_request_fails dbFault c n w1 Hn He) as (e' & Hrun).
  exists e'. split; [exact Hrun|]. cbv zeta.
  assert (Hfst : forall x w0, fst (guarded (scanClientTip dbFault) x w0) = inr tt).
  { intros x w0. apply guarded_total. apply scanClientTip_growing. }
  assert (Hscan : scanTipWindows dbFault w =
                  forOf post (guarded (scanClientTip dbFault))
                    (mkWorld (db w1)
                       (logs w1 ++ [(ERROR, ("[" ++ toString c ++ "] "
                                                 ++ errorText e')%string)]))).
  { unfold scanTipWindows. rewrite Hcs.
    replace (length (pre ++ c :: post) =? 0)%nat with false
      by (symmetry; apply Nat.eqb_neq; rewrite length_app; simpl; lia).
    rewrite forOf_app by exact Hfst. fold w1.
    simpl. unfold bind at 1. unfold guarded at 1. unfold tryCatch.
    rewrite Hrun. reflexivity. }
  rewrite Hscan.
  split; [reflexivity|].
  apply forOf_guarded_total. intros x w0. apply scanClientTip_growing.
Qed.

End GapScanFacts.

(** Chain 2 loses its requests, chain 12 is filled: the table keeps no
    row of the heights 2006..2009 and holds the heights 206..209. *)
Lemma scanTipWindows_discards_failed_chain_witness :
  let w' := snd (scanTipWindows (rpc := gapScanRpc) noFault gapScanWorld) in
  fst (scanTipWindows (rpc := gapScanRpc) noFault gapScanWorld) = inr tt /\
  findMissingFullRange (db w') 2 = [2006; 2007; 2008; 2009] /\
  findMissingFullRange (db w') 12 = [] /\
  In (ERROR, "[2] Network timeout") (logs w') /\
  In (LOG, "[MockChain12] synced 206, 207, 208, 209") (logs w').
Proof.
  cbv zeta.
  destruct (@scanTipWindows_discards_failed_chain gapScanRpc noFault
              [] [12] 2 2006 "Network timeout" gapScanWorld eq_refl)
    as (e' & Hrun & Hscan & Hfst & _).
  - vm_compute. tauto.
  - reflexivity.
  - split; [exact Hfst|]. vm_compute. tauto.
Defined.

(** ** JavaScript values *)

Section JsValues.

Lemma ofDecimal_toString (z : Z) : ofDecimal (toString z) = Some z.
Proof.
  unfold ofDecimal, toString.
  rewrite NilZero.isi.
  - simpl. now rewrite DecimalZ.of_to.
  - destruct z; simpl; try discriminate.
    intros [= H]. now apply Unsigned.to_uint_nonnil in H.
  - destruct z; simpl; try discriminate.
    intros [= H]. now apply Unsigned.to_uint_nonnil in H.
Qed.

Lemma pow_53_lt_1024 : 2 ^ 53 < 2 ^ 1024.
Proof. apply Z.pow_lt_mono_r; lia. Qed.

Lemma sgn_mul_abs (z : Z) : Z.sgn z * Z.abs z = z.
Proof. destruct z; simpl; reflexivity. Qed.

(** Integers of magnitude up to 2^53 are numbers exactly. *)
Lemma toNumber_exact (z : Z) : Z.abs z <= 2 ^ 53 -> toNumber z = Num z.
Proof.
  intros H. unfold toNumber.
  assert (E : nearestDouble (Z.abs z) = Z.abs z).
  { unfold nearestDouble.
    destruct (Z.ltb_spec (Z.abs z) (2 ^ 53)) as [Hlt|Hge]; [reflexivity|].
    replace (Z.abs z) with (2 ^ 53) by lia. vm_compute. reflexivity. }
  rewrite E.
  pose proof pow_53_lt_1024.
  replace (Z.abs z <? 2 ^ 1024) with true by (symmetry; apply Z.ltb_lt; lia).
  now rewrite sgn_mul_abs.
Qed.

Lemma ParseIntPipe_toString (z : Z) :
  Z.abs z <= 2 ^ 53 -> ParseIntPipe (toString z) = Some z.
Proof.
  intros H. unfold ParseIntPipe.
  now rewrite ofDecimal_toString, toNumber_exact.
Qed.

Lemma fitsInt_safe (c : Z) : fitsInt c = true -> Z.abs c <= 2 ^ 53.
Proof.
  unfold fitsInt. rewrite andb_true_iff, Z.leb_le, Z.ltb_lt.
  assert (2 ^ 31 < 2 ^ 53) by (apply Z.pow_lt_mono_r; lia). lia.
Qed.

End JsValues.

(** ** The read API *)



(** C9 (as stated) fails: a height above 2^53 in the path is read as
    its nearest double, so the stored record of that height is not
    found, and a timestamp above 2^53 is stored rounded. *)
Lemma wide_integers_truncated :
  let h := 9007199254740993 in
  let t := fst (upsertBlocks emptyTable [mkInsert 1 h "0xh" "0xp" 1700000000]) in
  2 ^ 32 < h < 2 ^ 63 /\
  ParseIntPipe (toString h) = Some 9007199254740992 /\
  (exists res, byNumber t 1 h = Some res) /\
  byNumberRoute t "1" (toString h) = ok notFound /\
  mapped 1 (Some (mkRpcBlock 5 "0xh" "0xp" h)) =
    inr (mkInsert 1 5 "0xh" "0xp" 9007199254740992).
Proof.
  cbv zeta. split; [lia|].
  split; [vm_compute; reflexivity|].
  split; [eexists; vm_compute; reflexivity|].
  split; vm_compute; reflexivity.
Qed.

(** C9 (amended) — heights are carried as integers on the ingest path
    and every stored height and timestamp is serialised exactly;
    timestamps pass through [Number] on ingest and the path parameter
    through [parseInt], both exact up to 2^53, which covers the
    heights beyond the 32-bit range up to that bound. *)
Theorem wide_integers_exact_in_safe_range :
  (forall c b, Z.abs (rb_timestamp b) <= 2 ^ 53 ->
     mapped c (Some b) =
     inr (mkInsert c (rb_number b) (rb_hash b) (rb_parentHash b)
                   (rb_timestamp b))) /\
  (forall c b row, mapped c (Some b) = inr row -> i_number row = rb_number b) /\
  (forall res,
     ofDecimal (dto_number (toEvmBlockDto res)) = Some (number res) /\
     ofDecimal (dto_timestamp (toEvmBlockDto res)) = Some (timestamp res)) /\
  (forall n, Z.abs n <= 2 ^ 53 -> ParseIntPipe (toString n) = Some n) /\
  (forall t c n, fitsInt c = true -> 0 <= n <= 2 ^ 53 ->
     byNumberRoute t (toString c) (toString n) =
     ok match byNumber t c n with
        | Some res => dtoJson (toEvmBlockDto res)
        | None => notFound
        end).
Proof.
  split.
  { intros c b H. unfold mapped. now rewrite toNumber_exact. }
  split.
  { intros c b row. unfold mapped.
    destruct (toNumber (rb_timestamp b)); [|discriminate].
    now intros [= <-]. }
  split.
  { intros res. split; apply ofDecimal_toString. }
  split; [exact ParseIntPipe_toString|].
  intros t c n Hc Hn. unfold byNumberRoute.
  rewrite (ParseIntPipe_toString c) by now apply fitsInt_safe.
  rewrite (ParseIntPipe_toString n) by lia.
  rewrite Hc.
  replace (fitsBigInt n) with true.
  - simpl. destruct (byNumber t c n); reflexivity.
  - symmetry. unfold fitsBigInt. apply andb_true_iff.
    assert (2 ^ 53 < 2 ^ 63) by (apply Z.pow_lt_mono_r; lia).
    split; [apply Z.leb_le | apply Z.ltb_lt]; lia.
Qed.

(** The large height of the controller test and a present-day
    timestamp. *)
Lemma wide_integers_exact_in_safe_range_witness :
  mapped 1 (Some (mkRpcBlock 999999999999999 "0xh" "0xp" 1700000000)) =
    inr (mkInsert 1 999999999999999 "0xh" "0xp" 1700000000) /\
  ParseIntPipe (toString 999999999999999) = Some 999999999999999 /\
  byNumberRoute emptyTable (toString 1) (toString 999999999999999) =
    ok notFound.
Proof.
  destruct wide_integers_exact_in_safe_range as (H1 & _ & _ & H4 & H5).
  split.
  - apply (H1 1 (mkRpcBlock 999999999999999 "0xh" "0xp" 1700000000)).
    vm_compute. discriminate.
  - split.
    + apply H4. vm_compute. discriminate.
    + apply (H5 emptyTable 1 999999999999999); [reflexivity|].
      split; vm_compute; discriminate.
Defined.

(** ** The RPC gateway *)

(** C6 (as stated) fails: with no URL configured for chain 999 the
    gateway raises nothing; it builds a client on the mainnet
    descriptor, names the chain "Ethereum" and passes on whatever the
    network answers to that client. *)
Lemma gateway_unknown_chain_falls_back :
  let svc := newViemRpcService noConfig in
  config_get (config svc) "RPC_CHAIN_999_URL" "" = "" /\
  fst (getClient svc 999) = mkClient (Some mainnet) "" /\
  fst (viem_getChainName svc 999) = "Ethereum" /\
  fst (viem_getHeadNumber answering svc 999) = inr 19000000 /\
  fst (viem_getBlockByNumber answering svc 999 5) =
    inr (mkRpcBlock 5 "0xblock" "0xparent" 1700000000).
Proof. cbv zeta. repeat split. Qed.

Lemma map_get_set_same (V : Type) (m : JsMap V) (k : Z) (v : V) :
  map_get (map_set m k v) k = Some v.
Proof.
  induction m as [|[k' v'] m IH]; simpl.
  - now rewrite Z.eqb_refl.
  - destruct (k' =? k) eqn:E; simpl.
    + now rewrite Z.eqb_refl.
    + now rewrite E.
Qed.

Lemma map_keys_set (V : Type) (m : JsMap V) (k : Z) (v : V) :
  In k (map_keys (map_set m k v)).
Proof.
  unfold map_keys.
  induction m as [|[k' v'] m IH]; simpl; auto.
  destruct (k' =? k); simpl; auto.
Qed.

Lemma viemChainById_default (id_ : Z) :
  knownChain id_ = false -> viemChainById id_ = mainnet.
Proof.
  unfold knownChain, viemChainById. simpl.
  destruct (id_ =? 1); [reflexivity|].
  destruct (id_ =? 10); [discriminate|].
  destruct (id_ =? 137); [discriminate|].
  destruct (id_ =? 42161); [discriminate|].
  destruct (id_ =? 8453); [discriminate|].
  destruct (id_ =? 11155111); [discriminate|]. reflexivity.
Qed.

(** C6 (amended) — for a chain whose [RPC_CHAIN_<N>_URL] is empty and
    that has no cached client, the gateway creates and caches a client
    with the empty URL and the descriptor [viemChainById N], which is
    the mainnet descriptor for every id outside the six wired-in
    chains; [getChainName] returns that descriptor's name and the two
    block operations return what the network answers to that client. *)
Theorem gateway_empty_url_client
        (getBlock : PublicClient -> BlockQuery -> Exn + RpcBlock)
        (svc : ViemRpcService) (N n : Z) :
  config_get (config svc) ("RPC_CHAIN_" ++ toString N ++ "_URL") "" = "" ->
  map_get (clients svc) N = None ->
  let client := mkClient (Some (viemChainById N)) "" in
  let svc' := mkViem (config svc) (map_set (clients svc) N client) in
  getClient svc N = (client, svc') /\
  map_get (clients svc') N = Some client /\
  In N (viem_getConfiguredChainIds svc') /\
  viem_getChainName svc N = (chain_name (viemChainById N), svc') /\
  (knownChain N = false -> viemChainById N = mainnet) /\
  viem_getHeadNumber getBlock svc N =
    (match getBlock client blockTagLatest with
     | inr b => inr (rb_number b)
     | inl e => inl e
     end, svc') /\
  viem_getBlockByNumber getBlock svc N n = (getBlock client (blockNumber n), svc').
Proof.
  intros Hurl Hnew. cbv zeta.
  assert (G : getClient svc N =
              (mkClient (Some (viemChainById N)) "",
               mkViem (config svc)
                 (map_set (clients svc) N (mkClient (Some (viemChainById N)) "")))).
  { unfold getClient. now rewrite Hnew, Hurl. }
  split; [exact G|].
  split; [apply map_get_set_same|].
  split; [apply map_keys_set|].
  split; [unfold viem_getChainName; now rewrite G|].
  split; [apply viemChainById_default|].
  split; [unfold viem_getHeadNumber; now rewrite G|].
  unfold viem_getBlockByNumber. now rewrite G.
Qed.

(** Chain 999 on a gateway without any configured URL. *)
Lemma gateway_empty_url_client_witness :
  let svc := newViemRpcService noConfig in
  viem_getChainName svc 999 =
    ("Ethereum",
     mkViem noConfig [(1, mkClient (Some mainnet) "");
                      (999, mkClient (Some mainnet) "")]) /\
  viemChainById 999 = mainnet /\
  viem_getHeadNumber answering svc 999 =
    (inr 19000000,
     mkViem noConfig [(1, mkClient (Some mainnet) "");
                      (999, mkClient (Some mainnet) "")]).
Proof.
  cbv zeta.
  destruct (@gateway_empty_url_client answering (newViemRpcService noConfig)
              999 0 eq_refl eq_refl)
    as (_ & _ & _ & Hname & Hdef & Hhead & _).
  split; [exact Hname|].
  split; [apply Hdef; reflexivity | exact Hhead].
Defined.

(** ** Route labels *)

Section Patterns.

Lemma isSlash_eq (c : ascii) : isSlash c = true -> c = "/"%char.
Proof. apply Ascii.eqb_eq. Qed.

Lemma takeN_local (p : ascii -> bool) (n : nat) :
  p "/"%char = false ->
  forall w rest, boundary rest ->
    takeN p n (w ++ rest) = option_map (fun r => r ++ rest) (takeN p n w).
Proof.
  intros Hp. induction n as [|n IH]; intros w rest Hb; [reflexivity|].
  destruct w as [|c w]; simpl.
  - destruct rest as [|c r]; [reflexivity|].
    simpl in Hb. apply isSlash_eq in Hb; subst c. now rewrite Hp.
  - destruct (p c); [now apply IH | reflexivity].
Qed.

Lemma takeChar_local (c : ascii) :
  isSlash c = false ->
  forall w rest, boundary rest ->
    takeChar c (w ++ rest) = option_map (fun r => r ++ rest) (takeChar c w).
Proof.
  intros Hc [|d w] rest Hb; simpl.
  - destruct rest as [|d r]; [reflexivity|].
    simpl in Hb. apply isSlash_eq in Hb; subst d.
    unfold isSlash in Hc. unfold takeChar. now rewrite Hc.
  - destruct (Ascii.eqb c d); reflexivity.
Qed.

Lemma matchShape_local (shape : list Item) :
  forall w rest, boundary rest ->
    matchShape shape (w ++ rest) =
    option_map (fun r => r ++ rest) (matchShape shape w).
Proof.
  induction shape as [|[n|] shape IH]; intros w rest Hb; simpl; auto.
  - rewrite takeN_local by (auto; reflexivity).
    destruct (takeN isHex n w); simpl; auto.
  - rewrite takeChar_local by (auto; reflexivity).
    destruct (takeChar "-" w); simpl; auto.
Qed.

Lemma patShape_local (shape : list Item) : localPattern (patShape shape).
Proof.
  intros w rest Hb. unfold patShape. rewrite matchShape_local by assumption.
  destruct (matchShape shape w); reflexivity.
Qed.

Lemma takeN_length (p : ascii -> bool) (n : nat) :
  forall w r, takeN p n w = Some r -> length w = (n + length r)%nat.
Proof.
  induction n as [|n IH]; intros w r; simpl.
  - now intros [= ->].
  - destruct w as [|c w]; [discriminate|].
    destruct (p c); [|discriminate].
    intros H. apply IH in H. simpl. lia.
Qed.

Lemma matchShape_length (shape : list Item) :
  forall w r, matchShape shape w = Some r ->
              length w = (width shape + length r)%nat.
Proof.
  induction shape as [|[n|] shape IH]; intros w r; simpl.
  - now intros [= ->].
  - destruct (takeN isHex n w) as [r1|] eqn:E; [|discriminate].
    intros H. apply IH in H. apply takeN_length in E. lia.
  - destruct (takeChar "-" w) as [r1|] eqn:E; [|discriminate].
    intros H. apply IH in H.
    unfold takeChar in E. destruct w as [|d w]; [discriminate|].
    destruct (Ascii.eqb "-" d); [|discriminate].
    injection E as <-. simpl. lia.
Qed.

Lemma patShape_bounded (shape : list Item) : boundedPattern (patShape shape).
Proof.
  intros w n. unfold patShape.
  destruct (matchShape shape w) as [r|] eqn:E; [|discriminate].
  intros [= <-]. apply matchShape_length in E. lia.
Qed.

Lemma spanLen_local (p : ascii -> bool) :
  p "/"%char = false ->
  forall w rest, boundary rest -> spanLen p (w ++ rest) = spanLen p w.
Proof.
  intros Hp. induction w as [|c w IH]; intros rest Hb; simpl.
  - destruct rest as [|c r]; [reflexivity|].
    simpl in Hb. apply isSlash_eq in Hb; subst c. simpl. now rewrite Hp.
  - destruct (p c); auto.
Qed.

Lemma spanLen_le (p : ascii -> bool) (w : list ascii) :
  (spanLen p w <= length w)%nat.
Proof.
  induction w as [|c w IH]; simpl; [lia|]. destruct (p c); lia.
Qed.

Lemma patDigits_local : localPattern patDigits.
Proof.
  intros w rest Hb. unfold patDigits.
  now rewrite spanLen_local by (auto; reflexivity).
Qed.

Lemma patDigits_bounded : boundedPattern patDigits.
Proof.
  intros w n. unfold patDigits. pose proof (spanLen_le isDigit w).
  destruct (spanLen isDigit w); [discriminate|]. intros [= <-]. lia.
Qed.

Lemma patHexPrefixed_local : localPattern patHexPrefixed.
Proof.
  intros w rest Hb. unfold patHexPrefixed.
  destruct w as [|c0 [|cx r]]; simpl.
  - destruct rest as [|c [|d r]]; try reflexivity;
      simpl in Hb; apply isSlash_eq in Hb; subst c; reflexivity.
  - destruct rest as [|c r]; [reflexivity|].
    simpl in Hb. apply isSlash_eq in Hb; subst c. simpl.
    now rewrite andb_false_r.
  - now rewrite spanLen_local by (auto; reflexivity).
Qed.

Lemma patHexPrefixed_bounded : boundedPattern patHexPrefixed.
Proof.
  intros w n. unfold patHexPrefixed.
  destruct w as [|c0 [|cx r]]; try discriminate.
  destruct (_ && _); [|discriminate].
  pose proof (spanLen_le isHex r).
  destruct (spanLen isHex r); [discriminate|]. intros [= <-]. simpl. lia.
Qed.

End Patterns.

Section Replace.

Variable pat : Pattern.
Variable rep : list ascii.
Hypothesis pat_local : localPattern pat.
Hypothesis pat_bounded : boundedPattern pat.
Hypothesis rep_noSlash : noSlash rep.

Lemma noSlash_cons (c : ascii) (w : list ascii) :
  noSlash (c :: w) <-> isSlash c = false /\ noSlash w.
Proof. unfold noSlash; simpl. apply orb_false_iff. Qed.

Lemma noSlash_app (u v : list ascii) :
  noSlash (u ++ v) <-> noSlash u /\ noSlash v.
Proof. unfold noSlash. rewrite existsb_app. apply orb_false_iff. Qed.

Lemma noSlash_skipn (k : nat) (w : list ascii) : noSlash w -> noSlash (skipn k w).
Proof.
  intros H. rewrite <- (firstn_skipn k w) in H. now apply noSlash_app in H.
Qed.

Lemma replaceAll_copy (w : list ascii) :
  noSlash w -> forall r,
  replaceAll pat rep 0 (w ++ r) = w ++ replaceAll pat rep 0 r.
Proof.
  induction w as [|c w IH]; intros Hw r; [reflexivity|].
  apply noSlash_cons in Hw. destruct Hw as [Hc Hw].
  simpl. rewrite Hc. now rewrite IH.
Qed.

Lemma replaceAll_skip (k : nat) :
  forall w r, (k <= length w)%nat ->
  replaceAll pat rep k (w ++ r) = replaceAll pat rep 0 (skipn k w ++ r).
Proof.
  induction k as [|k IH]; intros w r Hk; [reflexivity|].
  destruct w as [|c w]; simpl in *; [lia|].
  apply IH. lia.
Qed.

Lemma replaceSegment_noSlash (w : list ascii) :
  noSlash w -> noSlash (replaceSegment pat rep w).
Proof.
  intros Hw. unfold replaceSegment. destruct (pat w); auto.
  apply noSlash_app. split; auto. now apply noSlash_skipn.
Qed.

(** One segment after a slash is rewritten on its own. *)
Lemma replaceAll_segment (w rest : list ascii) :
  noSlash w -> boundary rest ->
  replaceAll pat rep 0 ("/"%char :: w ++ rest) =
  "/"%char :: replaceSegment pat rep w ++ replaceAll pat rep 0 rest.
Proof.
  intros Hw Hb. cbn [replaceAll]. change (isSlash "/") with true. cbn iota.
  rewrite pat_local by assumption. unfold replaceSegment.
  destruct (pat w) as [n|] eqn:E.
  - rewrite replaceAll_skip by now apply pat_bounded.
    rewrite replaceAll_copy by now apply noSlash_skipn.
    now rewrite <- app_assoc.
  - now rewrite replaceAll_copy.
Qed.

Lemma boundary_flat_map (ws : list (list ascii)) :
  boundary (flat_map (fun w => "/"%char :: w) ws).
Proof. destruct ws; simpl; auto. Qed.

Lemma replaceAll_join (w0 : list ascii) (ws : list (list ascii)) :
  noSlash w0 -> Forall noSlash ws ->
  replaceAll pat rep 0 (joinSegments w0 ws) =
  joinSegments w0 (map (replaceSegment pat rep) ws).
Proof.
  intros H0 Hws. unfold joinSegments.
  rewrite replaceAll_copy by assumption. f_equal.
  induction Hws as [|w ws Hw Hws IH]; [reflexivity|].
  change (flat_map (fun w1 => "/"%char :: w1) (w :: ws))
    with ("/"%char :: w ++ flat_map (fun w1 => "/"%char :: w1) ws).
  rewrite replaceAll_segment; auto using boundary_flat_map.
  rewrite IH. reflexivity.
Qed.

Lemma replaceSegment_Forall (ws : list (list ascii)) :
  Forall noSlash ws -> Forall noSlash (map (replaceSegment pat rep) ws).
Proof.
  induction 1; simpl; constructor; auto using replaceSegment_noSlash.
Qed.

End Replace.

Section Segments.

Lemma splitSlash_join (s : list ascii) :
  s = joinSegments (fst (splitSlash s)) (snd (splitSlash s)) /\
  noSlash (fst (splitSlash s)) /\ Forall noSlash (snd (splitSlash s)).
Proof.
  unfold joinSegments.
  induction s as [|c s (IH1 & IH2 & IH3)]; simpl.
  - repeat split. constructor.
  - destruct (splitSlash s) as [w ws]; simpl in *.
    destruct (isSlash c) eqn:E; simpl.
    + apply isSlash_eq in E; subst c. repeat split; auto. now rewrite <- IH1.
    + repeat split; auto.
      * now rewrite <- IH1.
      * apply noSlash_cons. auto.
Qed.

Lemma splitSlash_of_join (w0 : list ascii) (ws : list (list ascii)) :
  noSlash w0 -> Forall noSlash ws ->
  splitSlash (joinSegments w0 ws) = (w0, ws).
Proof.
  unfold joinSegments. intros H0 Hws.
  assert (Hrest : forall ws, Forall noSlash ws ->
            splitSlash (flat_map (fun w => "/"%char :: w) ws) =
            ([], ws) \/ ws = []).
  { clear. induction 1 as [|w ws Hw Hws IH]; [now right|]. left.
    change (flat_map (fun w1 => "/"%char :: w1) (w :: ws))
      with ("/"%char :: w ++ flat_map (fun w1 => "/"%char :: w1) ws).
    cbn [splitSlash]. change (isSlash "/") with true.
    assert (E : splitSlash (w ++ flat_map (fun w1 => "/"%char :: w1) ws)
                = (w, ws)).
    { clear Hws. induction w as [|c w IHw]; simpl.
      - destruct IH as [-> | ->]; reflexivity.
      - apply noSlash_cons in Hw. destruct Hw as [Hc Hw].
        rewrite (IHw Hw), Hc. reflexivity. }
    now rewrite E. }
  induction w0 as [|c w0 IHw]; simpl.
  - destruct (Hrest ws Hws) as [-> | ->]; reflexivity.
  - apply noSlash_cons in H0. destruct H0 as [Hc H0].
    rewrite (IHw H0), Hc. reflexivity.
Qed.

Lemma noSlash_chars_id : noSlash (chars ":id").
Proof. reflexivity. Qed.

Lemma noSlash_chars_hash : noSlash (chars ":hash").
Proof. reflexivity. Qed.

Lemma noSlash_chars_address : noSlash (chars ":address").
Proof. reflexivity. Qed.

(** The five replacements act on every segment after a slash as
    [normalizeSegment] and leave what precedes the first slash. *)
Lemma normalizeChars_join (w0 : list ascii) (ws : list (list ascii)) :
  noSlash w0 -> Forall noSlash ws ->
  normalizeChars (joinSegments w0 ws) =
  joinSegments w0 (map normalizeSegment ws).
Proof.
  intros H0 Hws. unfold normalizeChars. cbv zeta.
  pose proof (replaceSegment_Forall patUuid noSlash_chars_id Hws) as H1.
  pose proof (replaceSegment_Forall patHexPrefixed noSlash_chars_hash H1) as H2.
  pose proof (replaceSegment_Forall patHex64 noSlash_chars_hash H2) as H3.
  pose proof (replaceSegment_Forall patHex40 noSlash_chars_address H3) as H4.
  unfold normalizeSegment. unfold patUuid, patHex64, patHex40 in *.
  rewrite (replaceAll_join (chars ":id") (patShape_local uuidShape)
             (patShape_bounded uuidShape) H0 Hws).
  rewrite (replaceAll_join (chars ":hash") patHexPrefixed_local
             patHexPrefixed_bounded H0 H1).
  rewrite (replaceAll_join (chars ":hash") (patShape_local [Hex 64])
             (patShape_bounded [Hex 64]) H0 H2).
  rewrite (replaceAll_join (chars ":address") (patShape_local [Hex 40])
             (patShape_bounded [Hex 40]) H0 H3).
  rewrite (replaceAll_join (chars ":id") patDigits_local
             patDigits_bounded H0 H4).
  now rewrite !map_map.
Qed.

Lemma normalizeSegment_noSlash (w : list ascii) :
  noSlash w -> noSlash (normalizeSegment w).
Proof.
  intros H. unfold normalizeSegment.
  apply replaceSegment_noSlash; [apply noSlash_chars_id|].
  apply replaceSegment_noSlash; [apply noSlash_chars_address|].
  apply replaceSegment_noSlash; [apply noSlash_chars_hash|].
  apply replaceSegment_noSlash; [apply noSlash_chars_hash|].
  apply replaceSegment_noSlash; [apply noSlash_chars_id|]. exact H.
Qed.

Lemma normalizeChars_split (s : list ascii) :
  splitSlash (normalizeChars s) =
  (fst (splitSlash s), map normalizeSegment (snd (splitSlash s))).
Proof.
  destruct (splitSlash_join s) as (E & H0 & Hws).
  rewrite E at 1. rewrite normalizeChars_join by assumption.
  apply splitSlash_of_join; auto.
  clear E. induction Hws; simpl; constructor; auto.
  now apply normalizeSegment_noSlash.
Qed.

End Segments.

Section Kinds.

Lemma colonFirst_eq (w : list ascii) :
  colonFirst w = true -> exists r, w = ":"%char :: r.
Proof.
  destruct w as [|c r]; [discriminate|]. simpl. intros H.
  apply Ascii.eqb_eq in H; subst c. eauto.
Qed.

(** No pattern matches at a segment that begins with a colon. *)
Lemma colonFirst_unmatched (w : list ascii) :
  colonFirst w = true ->
  patUuid w = None /\ patHexPrefixed w = None /\ patHex64 w = None /\
  patHex40 w = None /\ patDigits w = None.
Proof.
  intros H. apply colonFirst_eq in H. destruct H as (r & ->).
  repeat split; try reflexivity.
  unfold patHexPrefixed. destruct r; reflexivity.
Qed.

Lemma colonFirst_bounded (w : list ascii) :
  colonFirst w = true -> unbounded w = false.
Proof.
  intros H. apply colonFirst_eq in H. destruct H as (r & ->).
  unfold unbounded, digitOnly, hexOfLength, hexPrefixed, isUuid.
  cbn [forallb]. change (isDigit ":") with false. change (isHex ":") with false.
  cbn [andb]. rewrite !andb_false_r. cbn [orb].
  destruct r; reflexivity.
Qed.

Lemma replaceSegment_fresh (pat : Pattern) (rep w : list ascii) :
  colonFirst rep = true ->
  colonFirst (replaceSegment pat rep w) = true \/
  (replaceSegment pat rep w = w /\ pat w = None).
Proof.
  intros Hr. unfold replaceSegment. destruct (pat w); [left|right; auto].
  apply colonFirst_eq in Hr. destruct Hr as (r & ->). reflexivity.
Qed.

Lemma replaceSegment_unmatched (pat : Pattern) (rep w : list ascii) :
  pat w = None -> replaceSegment pat rep w = w.
Proof. unfold replaceSegment. now intros ->. Qed.

(** A segment once replaced is left alone by the later replacements. *)
Lemma colonFirst_stays (w : list ascii) :
  colonFirst w = true ->
  replaceSegment patHexPrefixed (chars ":hash") w = w /\
  replaceSegment patHex64 (chars ":hash") w = w /\
  replaceSegment patHex40 (chars ":address") w = w /\
  replaceSegment patDigits (chars ":id") w = w.
Proof.
  intros H. destruct (colonFirst_unmatched w H) as (_ & H2 & H3 & H4 & H5).
  repeat split; now apply replaceSegment_unmatched.
Qed.

Lemma takeN_all (p : ascii -> bool) (n : nat) :
  forall w, forallb p w = true -> (n <= length w)%nat ->
            takeN p n w = Some (skipn n w).
Proof.
  induction n as [|n IH]; intros w Hw Hn; [reflexivity|].
  destruct w as [|c w]; simpl in *; [lia|].
  apply andb_true_iff in Hw. destruct Hw as [Hc Hw].
  rewrite Hc. apply IH; auto. lia.
Qed.

Lemma spanLen_all (p : ascii -> bool) (w : list ascii) :
  forallb p w = true -> spanLen p w = length w.
Proof.
  induction w as [|c w IH]; simpl; auto.
  intros H. apply andb_true_iff in H. destruct H as [-> H]. now rewrite IH.
Qed.

Lemma isDigit_isHex (c : ascii) : isDigit c = true -> isHex c = true.
Proof. unfold isHex. now intros ->. Qed.

Lemma forallb_digit_hex (w : list ascii) :
  forallb isDigit w = true -> forallb isHex w = true.
Proof.
  rewrite !forallb_forall. intros H c Hc. now apply isDigit_isHex, H.
Qed.

(** The kinds of segment and the patterns that catch them. *)
Lemma digitOnly_matched (w : list ascii) :
  digitOnly w = true -> patDigits w = Some (length w).
Proof.
  unfold digitOnly, patDigits. intros H. apply andb_true_iff in H.
  destruct H as [Hn Hd]. rewrite (@spanLen_all _ _ Hd).
  destruct w; [discriminate | reflexivity].
Qed.

Lemma hexOfLength_matched (n : nat) (w : list ascii) :
  hexOfLength n w = true -> patShape [Hex n] w = Some (length w).
Proof.
  unfold hexOfLength, patShape. intros H. apply andb_true_iff in H.
  destruct H as [Hn Hh]. apply Nat.eqb_eq in Hn. simpl.
  rewrite (@takeN_all isHex n w Hh) by lia. simpl. f_equal. lia.
Qed.

Lemma hexPrefixed_matched (w : list ascii) :
  hexPrefixed w = true -> patHexPrefixed w = Some (length w).
Proof.
  unfold hexPrefixed, patHexPrefixed.
  destruct w as [|c0 [|cx r]]; try discriminate.
  intros H. apply andb_true_iff in H. destruct H as [H Hh].
  apply andb_true_iff in H. destruct H as [H Hn]. rewrite H.
  rewrite (@spanLen_all _ _ Hh).
  destruct r; [discriminate | reflexivity].
Qed.

Lemma isUuid_matched (w : list ascii) :
  isUuid w = true -> patUuid w = Some (length w).
Proof.
  unfold isUuid, patUuid, patShape.
  destruct (matchShape uuidShape w) as [[|c r]|] eqn:E; try discriminate.
  intros _. apply matchShape_length in E. f_equal. simpl in *. lia.
Qed.

Lemma replaceSegment_whole (pat : Pattern) (rep w : list ascii) :
  pat w = Some (length w) -> replaceSegment pat rep w = rep.
Proof.
  unfold replaceSegment. intros ->. now rewrite skipn_all, app_nil_r.
Qed.

(** Every segment leaves the five replacements outside the unbounded
    kinds. *)
Lemma normalizeSegment_bounded (w : list ascii) :
  unbounded (normalizeSegment w) = false.
Proof.
  unfold normalizeSegment.
  destruct (replaceSegment_fresh patUuid (chars ":id") w eq_refl)
    as [C1|[E1 N1]].
  { destruct (colonFirst_stays _ C1) as (-> & -> & -> & ->).
    now apply colonFirst_bounded. }
  rewrite E1.
  destruct (replaceSegment_fresh patHexPrefixed (chars ":hash") w eq_refl)
    as [C2|[E2 N2]].
  { destruct (colonFirst_unmatched _ C2) as (_ & _ & H3 & H4 & H5).
    rewrite (@replaceSegment_unmatched _ (chars ":hash") _ H3),
            (@replaceSegment_unmatched _ (chars ":address") _ H4),
            (@replaceSegment_unmatched _ (chars ":id") _ H5).
    now apply colonFirst_bounded. }
  rewrite E2.
  destruct (replaceSegment_fresh patHex64 (chars ":hash") w eq_refl)
    as [C3|[E3 N3]].
  { destruct (colonFirst_unmatched _ C3) as (_ & _ & _ & H4 & H5).
    rewrite (@replaceSegment_unmatched _ (chars ":address") _ H4),
            (@replaceSegment_unmatched _ (chars ":id") _ H5).
    now apply colonFirst_bounded. }
  rewrite E3.
  destruct (replaceSegment_fresh patHex40 (chars ":address") w eq_refl)
    as [C4|[E4 N4]].
  { destruct (colonFirst_unmatched _ C4) as (_ & _ & _ & _ & H5).
    rewrite (@replaceSegment_unmatched _ (chars ":id") _ H5).
    now apply colonFirst_bounded. }
  rewrite E4.
  destruct (replaceSegment_fresh patDigits (chars ":id") w eq_refl)
    as [C5|[E5 N5]].
  { now apply colonFirst_bounded. }
  rewrite E5. unfold unbounded.
  destruct (digitOnly w) eqn:K1.
  { apply digitOnly_matched in K1. congruence. }
  destruct (hexOfLength 40 w) eqn:K2.
  { apply hexOfLength_matched in K2. unfold patHex40 in N4. congruence. }
  destruct (hexOfLength 64 w) eqn:K3.
  { apply hexOfLength_matched in K3. unfold patHex64 in N3. congruence. }
  destruct (hexPrefixed w) eqn:K4.
  { apply hexPrefixed_matched in K4. congruence. }
  destruct (isUuid w) eqn:K5.
  { apply isUuid_matched in K5. congruence. }
  reflexivity.
Qed.

End Kinds.

Section SpecificFirst.

Lemma takeN_suffix (p : ascii -> bool) (n : nat) :
  forall w r, takeN p n w = Some r -> exists u, w = u ++ r.
Proof.
  induction n as [|n IH]; intros w r; simpl.
  - intros [= ->]. now exists [].
  - destruct w as [|c w]; [discriminate|].
    destruct (p c); [|discriminate].
    intros H. apply IH in H. destruct H as (u & ->). now exists (c :: u).
Qed.

Lemma hex_not_uuid (w : list ascii) :
  forallb isHex w = true -> patUuid w = None.
Proof.
  intros Hh. unfold patUuid, patShape, uuidShape.
  cbn [matchShape].
  destruct (takeN isHex 8 w) as [r1|] eqn:E1; [|reflexivity].
  destruct (takeChar "-" r1) as [r2|] eqn:E2; [|reflexivity].
  exfalso. apply takeN_suffix in E1. destruct E1 as (u & ->).
  unfold takeChar in E2. destruct r1 as [|d r1]; [discriminate|].
  destruct (Ascii.eqb "-" d) eqn:Ed; [|discriminate].
  apply Ascii.eqb_eq in Ed; subst d.
  rewrite forallb_app in Hh. apply andb_true_iff in Hh.
  destruct Hh as [_ Hh]. simpl in Hh. discriminate.
Qed.

Lemma hex_not_prefixed (w : list ascii) :
  forallb isHex w = true -> patHexPrefixed w = None.
Proof.
  intros Hh. unfold patHexPrefixed.
  destruct w as [|c0 [|cx r]]; try reflexivity.
  simpl in Hh. apply andb_true_iff in Hh. destruct Hh as [_ Hh].
  apply andb_true_iff in Hh. destruct Hh as [Hx _].
  destruct (Ascii.eqb cx "x") eqn:E1.
  { apply Ascii.eqb_eq in E1; subst cx. discriminate. }
  destruct (Ascii.eqb cx "X") eqn:E2.
  { apply Ascii.eqb_eq in E2; subst cx. discriminate. }
  now rewrite andb_false_r.
Qed.

Lemma short_not_hex (n : nat) (w : list ascii) :
  (length w < n)%nat -> patShape [Hex n] w = None.
Proof.
  intros H. unfold patShape. simpl.
  destruct (takeN isHex n w) as [r|] eqn:E; [|reflexivity].
  apply takeN_length in E. lia.
Qed.

Lemma prefixed_not_uuid (w : list ascii) :
  hexPrefixed w = true -> patUuid w = None.
Proof.
  unfold hexPrefixed. destruct w as [|c0 [|cx r]]; try discriminate.
  intros H. apply andb_true_iff in H. destruct H as [H _].
  apply andb_true_iff in H. destruct H as [H _].
  apply andb_true_iff in H. destruct H as [H0 Hx].
  apply Ascii.eqb_eq in H0; subst c0.
  apply orb_true_iff in Hx.
  destruct Hx as [Hx|Hx]; apply Ascii.eqb_eq in Hx; subst cx; reflexivity.
Qed.

(** The order of the replacements decides between overlapping kinds:
    the more specific pattern, applied first, names the segment. *)
Lemma normalizeSegment_specific (w : list ascii) :
  (isUuid w = true -> normalizeSegment w = chars ":id") /\
  (hexPrefixed w = true -> normalizeSegment w = chars ":hash") /\
  (hexOfLength 64 w = true -> normalizeSegment w = chars ":hash") /\
  (hexOfLength 40 w = true -> normalizeSegment w = chars ":address") /\
  (digitOnly w = true -> (length w < 40)%nat ->
     normalizeSegment w = chars ":id").
Proof.
  unfold normalizeSegment. repeat split.
  - intros H. rewrite (@replaceSegment_whole _ (chars ":id") _ (@isUuid_matched _ H)).
    reflexivity.
  - intros H.
    rewrite (@replaceSegment_unmatched _ (chars ":id") _ (@prefixed_not_uuid _ H)).
    rewrite (@replaceSegment_whole _ (chars ":hash") _ (@hexPrefixed_matched _ H)).
    reflexivity.
  - intros H. pose proof H as H'. unfold hexOfLength in H'.
    apply andb_true_iff in H'. destruct H' as [_ Hh].
    rewrite (@replaceSegment_unmatched _ (chars ":id") _ (@hex_not_uuid _ Hh)).
    rewrite (@replaceSegment_unmatched _ (chars ":hash") _
               (@hex_not_prefixed _ Hh)).
    unfold patHex64.
    rewrite (@replaceSegment_whole _ (chars ":hash") _
               (@hexOfLength_matched _ _ H)).
    reflexivity.
  - intros H. pose proof H as H'. unfold hexOfLength in H'.
    apply andb_true_iff in H'. destruct H' as [Hn Hh].
    apply Nat.eqb_eq in Hn.
    rewrite (@replaceSegment_unmatched _ (chars ":id") _ (@hex_not_uuid _ Hh)).
    rewrite (@replaceSegment_unmatched _ (chars ":hash") _
               (@hex_not_prefixed _ Hh)).
    unfold patHex64, patHex40.
    rewrite (@replaceSegment_unmatched _ (chars ":hash") _
               (@short_not_hex 64 w ltac:(lia))).
    rewrite (@replaceSegment_whole _ (chars ":address") _
               (@hexOfLength_matched _ _ H)).
    reflexivity.
  - intros H Hlen. pose proof H as H'. unfold digitOnly in H'.
    apply andb_true_iff in H'. destruct H' as [_ Hd].
    pose proof (@forallb_digit_hex _ Hd) as Hh.
    rewrite (@replaceSegment_unmatched _ (chars ":id") _ (@hex_not_uuid _ Hh)).
    rewrite (@replaceSegment_unmatched _ (chars ":hash") _
               (@hex_not_prefixed _ Hh)).
    unfold patHex64, patHex40.
    rewrite (@replaceSegment_unmatched _ (chars ":hash") _
               (@short_not_hex 64 w ltac:(lia))).
    rewrite (@replaceSegment_unmatched _ (chars ":address") _
               (@short_not_hex 40 w ltac:(lia))).
    apply replaceSegment_whole. now apply digitOnly_matched.
Qed.

End SpecificFirst.

(** C8 — route labels are normalised.  For every request whose route
    begins with a slash, no segment of the recorded route label is
    digit-only, 40 hex characters, 64 hex characters, 0x-prefixed hex
    or a UUID.  The five replacements run in the order UUID,
    hex-prefixed, 64-hex, 40-hex, decimal, so that a UUID becomes
    [:id], a 0x-prefixed or 64-hex segment [:hash], a 40-hex segment
    [:address] (also when it consists of digits) and a shorter
    digit-only segment [:id]. *)
Theorem route_label_normalized (req : Request) (statusCode : Z) :
  startsWithSlash (observedRoute req) = true ->
  l_route (recordedLabels req statusCode) = normalizeRoute (observedRoute req) /\
  (forall seg,
     In seg (segments (l_route (recordedLabels req statusCode))) ->
     digitOnly seg = false /\ hexOfLength 40 seg = false /\
     hexOfLength 64 seg = false /\ hexPrefixed seg = false /\
     isUuid seg = false) /\
  (forall s,
     normalizeChars s =
     replaceAll patDigits (chars ":id") 0
       (replaceAll patHex40 (chars ":address") 0
          (replaceAll patHex64 (chars ":hash") 0
             (replaceAll patHexPrefixed (chars ":hash") 0
                (replaceAll patUuid (chars ":id") 0 s)))) /\
     snd (splitSlash (normalizeChars s)) =
       map normalizeSegment (snd (splitSlash s))) /\
  (forall w,
     (isUuid w = true -> normalizeSegment w = chars ":id") /\
     (hexPrefixed w = true -> normalizeSegment w = chars ":hash") /\
     (hexOfLength 64 w = true -> normalizeSegment w = chars ":hash") /\
     (hexOfLength 40 w = true -> normalizeSegment w = chars ":address") /\
     (digitOnly w = true -> (length w < 40)%nat ->
        normalizeSegment w = chars ":id")).
Proof.
  intros Hs. split; [reflexivity|]. split.
  - intros seg Hin.
    assert (U : unbounded seg = false).
    { unfold recordedLabels in Hin. cbn [l_route] in Hin.
      unfold segments, normalizeRoute in Hin.
      destruct (observedRoute req) as [|c p] eqn:Er; [discriminate|].
      simpl in Hs. apply isSlash_eq in Hs; subst c.
      pose proof (normalizeChars_split (chars (String "/" p))) as Hsp.
      destruct (normalizeChars (chars (String "/" p))) as [|d s] eqn:En.
      { vm_compute in Hin.
        destruct Hin as [<-|[<-|[]]]; reflexivity. }
      unfold chars in Hin at 1.
      rewrite list_ascii_of_string_of_list_ascii in Hin.
      rewrite Hsp in Hin.
      cbn [chars list_ascii_of_string splitSlash] in Hin.
      change (isSlash "/") with true in Hin.
      destruct (splitSlash (list_ascii_of_string p)) as [w ws].
      cbn [fst snd map] in Hin.
      destruct Hin as [<-|Hin]; [reflexivity|].
      change (In seg (map normalizeSegment (w :: ws))) in Hin.
      apply in_map_iff in Hin. destruct Hin as (x & <- & _).
      apply normalizeSegment_bounded. }
    unfold unbounded in U.
    repeat (apply orb_false_iff in U; destruct U as [U ?]).
    auto.
  - split.
    + intros s. split; [reflexivity|].
      now rewrite normalizeChars_split.
    + exact normalizeSegment_specific.
Qed.

(** The paths of the service's unit test and an address made of
    digits. *)
Lemma route_label_normalized_witness :
  let req := mkRequest "GET" None
               "/api/tx/0x742d35cc6c6c0532c14216b2e6b1b7e89b5f6cfb/123" in
  l_route (recordedLabels req 200) = "/api/tx/:hash/:id" /\
  (forall seg, In seg (segments (l_route (recordedLabels req 200))) ->
               digitOnly seg = false) /\
  normalizeRoute "/api/users/550e8400-e29b-41d4-a716-446655440000"
    = "/api/users/:id" /\
  normalizeSegment (chars "1234567890123456789012345678901234567890")
    = chars ":address".
Proof.
  cbv zeta.
  destruct (route_label_normalized
              (mkRequest "GET" None
                 "/api/tx/0x742d35cc6c6c0532c14216b2e6b1b7e89b5f6cfb/123")
              200 eq_refl) as (_ & Hseg & _ & Hspec).
  split; [vm_compute; reflexivity|].
  split; [intros seg Hin; now apply Hseg|].
  split; [vm_compute; reflexivity|].
  apply Hspec. vm_compute. reflexivity.
Defined.

(* ================================================================== *)
(** * Further properties of the block table *)
(* ================================================================== *)

Section TableInvariants.

Lemma conflicts_false_keys (r : EvmBlockInsert) (l : list EvmBlock) :
  existsb (conflicts r) l = false ->
  ~ In (i_chainId r, i_number r) (map numberKey l) /\
  ~ In (i_chainId r, i_hash r) (map hashKey l).
Proof.
  intros H. split; intros Hin; apply in_map_iff in Hin;
    destruct Hin as (b & E & Hb); injection E as E1 E2;
    assert (C : existsb (conflicts r) l = true)
      by (apply existsb_exists; exists b; split; [exact Hb|];
          unfold conflicts; rewrite <- E1, Z.eqb_refl; simpl;
          rewrite <- E2, ?Z.eqb_refl, ?String.eqb_refl;
          auto using orb_true_r);
    congruence.
Qed.

Lemma NoDup_snoc (A : Type) (l : list A) (x : A) :
  NoDup l -> ~ In x l -> NoDup (l ++ [x]).
Proof.
  intros Hl Hx. apply NoDup_app; auto.
  - constructor; [intros []|constructor].
  - intros a Ha [<-|[]]. contradiction.
Qed.

Lemma insertRow_uniqueKeys (t : Table) (r : EvmBlockInsert) :
  uniqueKeys t -> uniqueKeys (fst (insertRow t r)).
Proof.
  unfold uniqueKeys, insertRow. intros [Hn Hh].
  destruct (existsb (conflicts r) (rows t)) eqn:E; simpl; [auto|].
  apply conflicts_false_keys in E. destruct E as [En Eh].
  rewrite !map_app. simpl. split; apply NoDup_snoc; auto.
Qed.

Lemma createMany_uniqueKeys (S : list EvmBlockInsert) :
  forall t, uniqueKeys t -> uniqueKeys (fst (createMany t S)).
Proof.
  induction S as [|r S IH]; intros t H; simpl; auto.
  pose proof (insertRow_uniqueKeys r H) as H1.
  destruct (insertRow t r) as [t1 c1]; simpl in *.
  specialize (IH t1 H1). now destruct (createMany t1 S).
Qed.

(** The rows that a write appends are rows of the batch. *)
Lemma createMany_added (S : list EvmBlockInsert) :
  forall t, exists added,
    rows (fst (createMany t S)) = rows t ++ added /\
    snd (createMany t S) = Z.of_nat (length added) /\
    (length added <= length S)%nat /\
    forall b, In b added -> In (columns b) S.
Proof.
  induction S as [|r S IH]; intros t.
  - exists []. simpl. rewrite app_nil_r. repeat split; auto.
  - cbn [createMany]. unfold insertRow.
    destruct (existsb (conflicts r) (rows t)) eqn:E.
    + destruct (IH (mkTable (rows t) (nextId t + 1)))
        as (added & Hr & Hc & Hl & Hin).
      destruct (createMany _ S) as [t2 c2]. cbn [fst snd rows] in *.
      exists added. split; [exact Hr|]. split; [lia|].
      split; [cbn [length]; lia|].
      intros b Hb. right. auto.
    + destruct (IH (mkTable (rows t ++ [stored (nextId t) r]) (nextId t + 1)))
        as (added & Hr & Hc & Hl & Hin).
      destruct (createMany _ S) as [t2 c2]. cbn [fst snd rows] in *.
      exists (stored (nextId t) r :: added).
      split; [rewrite Hr, <- app_assoc; reflexivity|].
      split; [cbn [length]; lia|].
      split; [cbn [length]; lia|].
      intros b [<-|Hb]; [left; now destruct r | right; auto].
Qed.

End TableInvariants.

(** The unique indexes on (chainId, number) and (chainId, hash) hold
    of every table that batch writes build from the empty table, and
    a batch write keeps them on any table that has them. *)
Theorem upsertBlocks_keeps_unique_indexes
        (t : Table) (S : list EvmBlockInsert)
        (batches : list (list EvmBlockInsert)) :
  (uniqueKeys t -> uniqueKeys (fst (upsertBlocks t S))) /\
  uniqueKeys (upsertAll emptyTable batches).
Proof.
  split; [apply createMany_uniqueKeys|].
  assert (G : forall t0, uniqueKeys t0 -> uniqueKeys (upsertAll t0 batches)).
  { unfold upsertAll. induction batches as [|b bs IH]; intros t0 H; simpl; auto.
    apply IH. now apply createMany_uniqueKeys. }
  apply G. split; constructor.
Qed.

Lemma upsertBlocks_keeps_unique_indexes_witness :
  let t := fst (upsertBlocks emptyTable
                  [mkInsert 1 5 "0xa" "0x0" 10; mkInsert 1 5 "0xb" "0x0" 11;
                   mkInsert 1 6 "0xa" "0x0" 12; mkInsert 2 5 "0xa" "0x0" 13]) in
  map numberKey (rows t) = [(1, 5); (2, 5)] /\
  uniqueKeys (fst (upsertBlocks t [mkInsert 2 6 "0xa" "0x0" 14;
                                   mkInsert 2 7 "0xc" "0x0" 15])).
Proof.
  cbv zeta. split; [reflexivity|].
  apply (upsertBlocks_keeps_unique_indexes _ _ []).
  split; vm_compute; repeat constructor; simpl; intuition discriminate.
Defined.

(** A batch write appends only rows of the batch, at most one per
    proposed row, and the returned count is never more than the size
    of the batch. *)
Theorem upsertBlocks_appends_batch_rows (t : Table) (S : list EvmBlockInsert) :
  exists added,
    rows (fst (upsertBlocks t S)) = rows t ++ added /\
    snd (upsertBlocks t S) = Z.of_nat (length added) /\
    0 <= snd (upsertBlocks t S) <= Z.of_nat (length S) /\
    forall b, In b added -> In (columns b) S.
Proof.
  destruct (createMany_added S t) as (added & Hr & Hc & Hl & Hin).
  exists added. unfold upsertBlocks. repeat split; auto; lia.
Qed.
